(** * Image-Processing-with-OpenMP: a shallow embedding of [image_processing.c]

    The C program reads a binary PPM (P6) image, applies a 3x3 box blur or a
    Sobel edge detector once sequentially and once under OpenMP, and writes
    the result of the second run.

    Conventions of the embedding.
    - A C [int] is a [Z].  Signed overflow has no defined behaviour in C, so
      nothing wraps: the places where it could happen ([3 * w * h], [%d]
      conversions, [atoi]) return [Undefined] when the value does not fit, and
      the accumulators of the two filters are shown to stay far inside the
      [int] range ([blur_sum_bounds], [sobel_sum_bounds]).
    - An [unsigned char] is a [Z] in [0, 255]; the conversion of an [int] to
      [unsigned char] is reduction modulo 256 ([to_uchar]).
    - A [double] is an IEEE 754 binary64 number, a primitive float
      ([PrimFloat.float]); [sqrt] is the correctly rounded square root.
    - A buffer ([unsigned char *]) is a [list Z]; every access is checked, and
      an access outside the buffer is [Undefined].
    - [malloc] returns a block whose contents are indeterminate: they are a
      parameter ([nat -> Z], the byte found at each offset).
    - The console output (usage text, timings, messages) is not modelled. *)

From Stdlib Require Import ZArith Lia String Ascii Floats.
From Stdlib Require DecimalString DecimalPos.
From stdpp Require Import base option list gmap strings.

Local Open Scope Z_scope.

(** ** Outcomes of C code *)

Inductive result (A : Type) : Type :=
| Val (a : A)          (* normal completion *)
| Exit (status : Z)    (* the process called [exit(status)] *)
| Undefined.           (* no defined behaviour (out-of-bounds access, overflow) *)

Arguments Val {A} a.
Arguments Exit {A} status.
Arguments Undefined {A}.

Definition result_bind {A B : Type} (m : result A) (k : A → result B) : result B :=
  match m with
  | Val a => k a
  | Exit s => Exit s
  | Undefined => Undefined
  end.

#[global] Instance result_ret : MRet result := λ A a, Val a.
#[global] Instance result_mbind : MBind result := λ A B k m, result_bind m k.

(** ** Integers, bytes and buffers *)

(* [#define MAX_COLOR 255] *)
Definition MAX_COLOR : Z := 255.

Definition INT_MAX : Z := 2147483647.
Definition INT_MIN : Z := -2147483648.

Definition in_int (v : Z) : bool := (INT_MIN <=? v) && (v <=? INT_MAX).

(* An [int] expression whose value must be representable. *)
Definition int_val (v : Z) : result Z := if in_int v then Val v else Undefined.

(* [a / b] on [int]: truncation toward zero; undefined for [b = 0]. *)
Definition int_div (a b : Z) : result Z :=
  if b =? 0 then Undefined else int_val (a ÷ b).

(* Conversion [int -> unsigned char]. *)
Definition to_uchar (v : Z) : Z := v mod 256.

Definition is_uchar (v : Z) : Prop := 0 ≤ v ≤ 255.

(* [buf[idx]] as an rvalue. *)
Definition load (buf : list Z) (idx : Z) : result Z :=
  if idx <? 0 then Undefined
  else match buf !! Z.to_nat idx with
       | Some v => Val v
       | None => Undefined
       end.

(* [buf[idx] = v]. *)
Definition store (buf : list Z) (idx : Z) (v : Z) : result (list Z) :=
  if idx <? 0 then Undefined
  else if (Z.to_nat idx <? length buf)%nat then Val (<[Z.to_nat idx := v]> buf)
  else Undefined.

(* [malloc(n)]: [n] bytes of indeterminate content. *)
Definition malloc (junk : nat → Z) (n : Z) : list Z :=
  (λ i, to_uchar (junk i)) <$> seq 0 (Z.to_nat n).

(* [memcpy(dst, src, n)]: the first [n] bytes of [dst] are replaced. *)
Definition memcpy (dst src : list Z) (n : Z) : result (list Z) :=
  if n <? 0 then Undefined
  else if (Z.to_nat n <=? length dst)%nat && (Z.to_nat n <=? length src)%nat
       then Val (take (Z.to_nat n) src ++ drop (Z.to_nat n) dst)
       else Undefined.

(** ** Counted loops *)

(* [n] iterations of [body], the counter starting at [i]. *)
Fixpoint for_loop {S : Type} (n : nat) (i : Z) (body : Z → S → result S) (s : S)
  : result S :=
  match n with
  | O => Val s
  | S n' => s' ← body i s; for_loop n' (i + 1) body s'
  end.

(* [for (int i = lo; i < hi; i++) body] *)
Definition for_lt {S : Type} (lo hi : Z) (body : Z → S → result S) (s : S) : result S :=
  for_loop (Z.to_nat (hi - lo)) lo body s.

(* [for (int i = lo; i <= hi; i++) body] *)
Definition for_le {S : Type} (lo hi : Z) (body : Z → S → result S) (s : S) : result S :=
  for_lt lo (hi + 1) body s.

(** ** Doubles: [sqrt], [fmin] and the conversions *)

(* Conversion [int -> double]; exact, since an [int] has at most 31 bits. *)
Definition int_to_double (n : Z) : float :=
  if n <? 0 then PrimFloat.opp (PrimFloat.of_uint63 (Uint63.of_Z (- n)))
  else PrimFloat.of_uint63 (Uint63.of_Z n).

(* [fmin(a, b)]: the smaller argument, a NaN counting as missing. *)
Definition fmin (a b : float) : float :=
  if PrimFloat.is_nan a then b
  else if PrimFloat.is_nan b then a
  else if PrimFloat.ltb a b then a else b.

(* The integral part of a finite double (truncation toward zero). *)
Definition double_trunc (f : float) : option Z :=
  match Prim2SF f with
  | S754_zero _ => Some 0
  | S754_finite sign m e =>
      let a := if 0 <=? e then Z.shiftl (Z.pos m) e else Z.shiftr (Z.pos m) (- e) in
      Some (if sign then - a else a)
  | S754_infinity _ | S754_nan => None
  end.

(* Conversion [double -> unsigned char]: defined only when the integral part
   is representable. *)
Definition double_to_uchar (f : float) : result Z :=
  match double_trunc f with
  | Some v => if (0 <=? v) && (v <=? 255) then Val v else Undefined
  | None => Undefined
  end.

(* [fmin(sqrt(sx * sx + sy * sy), 255)] stored into an [unsigned char]. *)
Definition magnitude (sx sy : Z) : result Z :=
  double_to_uchar
    (fmin (PrimFloat.sqrt (int_to_double (sx * sx + sy * sy))) (int_to_double 255)).

(** *** The magnitude, tabulated

    The floating-point expression is evaluated for every possible sum of
    squares: below 2^16 the whole conversion is compared with the integer
    square root; from 2^16 on it is enough that the square root is not below
    255. *)

Definition magnitude_of_sum (s : Z) : result Z :=
  double_to_uchar (fmin (PrimFloat.sqrt (int_to_double s)) (int_to_double 255)).

Definition sqrt_not_below_255 (s : Z) : bool :=
  let r := PrimFloat.sqrt (int_to_double s) in
  negb (PrimFloat.is_nan r) && negb (PrimFloat.ltb r (int_to_double 255)).

Definition magnitude_entry_ok (s : Z) : bool :=
  if s <? 65536
  then match magnitude_of_sum s with
       | Val v => v =? Z.min (Z.sqrt s) 255
       | _ => false
       end
  else sqrt_not_below_255 s.

(* All entries [base, base + 2^bits). *)
Fixpoint entries_ok (bits : nat) (base : Z) : bool :=
  match bits with
  | O => magnitude_entry_ok base
  | S b => entries_ok b base && entries_ok b (base + 2 ^ Z.of_nat b)
  end.

(** ** The image *)

(* [typedef struct { int width, height; unsigned char *data; } Image;] *)
Record Image : Type := mkImage {
  width : Z;
  height : Z;
  data : list Z
}.

(* [malloc(3 * w * h)]: the size is computed in [int] and converted to
   [size_t]; a negative size becomes a request no allocator satisfies, and the
   null pointer that comes back is then handed to [memcpy] or [fread]. *)
Definition alloc_pixels (junk : nat → Z) (w h : Z) : result (list Z) :=
  n1 ← int_val (3 * w);
  n ← int_val (n1 * h);
  if n <? 0 then Undefined else Val (malloc junk n).

(** ** The loop nest and its OpenMP schedule

    [#pragma omp parallel for collapse(2) schedule(dynamic) if(use_openmp)]
    hands the iterations [(y, x)] of the two collapsed loops to the threads
    in an order chosen at run time.  An iteration reads [img->data] only,
    which no iteration writes, and writes three cells of [temp] that no other
    iteration touches, so a parallel run is the iterations executed in the
    order [sched] puts them in. *)

Definition iterations (w h : Z) : list (Z * Z) :=
  y ← seqZ 1 (h - 1 - 1); pair y <$> seqZ 1 (w - 1 - 1).

(* A schedule runs every iteration once. *)
Definition schedule (sched : list (Z * Z) → list (Z * Z)) : Prop :=
  ∀ its, sched its ≡ₚ its.

Fixpoint run_iterations (body : Z → Z → list Z → result (list Z))
    (its : list (Z * Z)) (temp : list Z) : result (list Z) :=
  match its with
  | [] => Val temp
  | (y, x) :: its' => temp' ← body y x temp; run_iterations body its' temp'
  end.

Definition loop_nest (sched : list (Z * Z) → list (Z * Z)) (use_openmp : bool)
    (w h : Z) (body : Z → Z → list Z → result (list Z)) (temp : list Z)
  : result (list Z) :=
  hb ← int_val (h - 1);
  if use_openmp
  then run_iterations body (sched (iterations w h)) temp
  else for_lt 1 hb (λ y temp, for_lt 1 (w - 1) (λ x temp, body y x temp) temp) temp.

(** ** applyBlur *)

(* The body of the two inner loops: one neighbour added to the sums. *)
Definition blur_step (w : Z) (d : list Z) (y x dy dx : Z) (acc : Z * Z * Z * Z)
  : result (Z * Z * Z * Z) :=
  let '(sumR, sumG, sumB, count) := acc in
  let idx := 3 * ((y + dy) * w + (x + dx)) in
  r ← load d idx;
  g ← load d (idx + 1);
  b ← load d (idx + 2);
  Val (sumR + r, sumG + g, sumB + b, count + 1).

(* The body of the loop nest: one output pixel. *)
Definition blur_pixel (w : Z) (d : list Z) (y x : Z) (temp : list Z)
  : result (list Z) :=
  acc ← for_le (-1) 1 (λ dy acc,
           for_le (-1) 1 (λ dx acc, blur_step w d y x dy dx acc) acc) (0, 0, 0, 0);
  let '(sumR, sumG, sumB, count) := acc in
  let idx := 3 * (y * w + x) in
  vR ← int_div sumR count;
  temp ← store temp idx (to_uchar vR);
  vG ← int_div sumG count;
  temp ← store temp (idx + 1) (to_uchar vG);
  vB ← int_div sumB count;
  store temp (idx + 2) (to_uchar vB).

Definition applyBlur (sched : list (Z * Z) → list (Z * Z)) (junk : nat → Z)
    (img : Image) (use_openmp : bool) : result Image :=
  let w := width img in
  let h := height img in
  temp ← alloc_pixels junk w h;
  temp ← loop_nest sched use_openmp w h (blur_pixel w (data img)) temp;
  d ← memcpy (data img) temp (3 * w * h);
  Val (mkImage w h d).

(** ** applyEdgeDetection *)

Definition Gx : list (list Z) := [[-1; 0; 1]; [-2; 0; 2]; [-1; 0; 1]].
Definition Gy : list (list Z) := [[-1; -2; -1]; [0; 0; 0]; [1; 2; 1]].

(* [m[i][j]] for an [int m[3][3]]. *)
Definition load2 (m : list (list Z)) (i j : Z) : result Z :=
  if (i <? 0) || (j <? 0) then Undefined
  else match m !! Z.to_nat i with
       | Some row => match row !! Z.to_nat j with
                     | Some v => Val v
                     | None => Undefined
                     end
       | None => Undefined
       end.

Definition sobel_step (w : Z) (d : list Z) (y x dy dx : Z)
    (acc : Z * Z * Z * Z * Z * Z) : result (Z * Z * Z * Z * Z * Z) :=
  let '(sumRx, sumGx, sumBx, sumRy, sumGy, sumBy) := acc in
  let idx := 3 * ((y + dy) * w + (x + dx)) in
  weightX ← load2 Gx (dy + 1) (dx + 1);
  weightY ← load2 Gy (dy + 1) (dx + 1);
  r ← load d idx;
  g ← load d (idx + 1);
  b ← load d (idx + 2);
  Val (sumRx + r * weightX, sumGx + g * weightX, sumBx + b * weightX,
       sumRy + r * weightY, sumGy + g * weightY, sumBy + b * weightY).

Definition sobel_pixel (w : Z) (d : list Z) (y x : Z) (temp : list Z)
  : result (list Z) :=
  acc ← for_le (-1) 1 (λ dy acc,
           for_le (-1) 1 (λ dx acc, sobel_step w d y x dy dx acc) acc)
         (0, 0, 0, 0, 0, 0);
  let '(sumRx, sumGx, sumBx, sumRy, sumGy, sumBy) := acc in
  let idx := 3 * (y * w + x) in
  vR ← magnitude sumRx sumRy;
  temp ← store temp idx vR;
  vG ← magnitude sumGx sumGy;
  temp ← store temp (idx + 1) vG;
  vB ← magnitude sumBx sumBy;
  store temp (idx + 2) vB.

Definition applyEdgeDetection (sched : list (Z * Z) → list (Z * Z)) (junk : nat → Z)
    (img : Image) (use_openmp : bool) : result Image :=
  let w := width img in
  let h := height img in
  temp ← alloc_pixels junk w h;
  temp ← loop_nest sched use_openmp w h (sobel_pixel w (data img)) temp;
  d ← memcpy (data img) temp (3 * w * h);
  Val (mkImage w h d).

(** ** Pixels of a buffer *)

(* Channel [c] of the pixel in column [x] of row [y]. *)
Definition sample (w : Z) (d : list Z) (x y c : Z) : Z :=
  default 0 (d !! Z.to_nat (3 * (y * w + x) + c)).

(* The shape and type invariants of an image: positive dimensions, a size
   that [int] can hold, [3 * w * h] samples, each an [unsigned char]. *)
Definition wf_image (img : Image) : Prop :=
  1 ≤ width img ∧ 1 ≤ height img ∧
  3 * width img * height img ≤ INT_MAX ∧
  length (data img) = Z.to_nat (3 * width img * height img) ∧
  Forall is_uchar (data img).

Definition pixel (img : Image) (x y c : Z) : Z :=
  sample (width img) (data img) x y c.

(* A pixel with all eight neighbours inside the image. *)
Definition interior (w h x y : Z) : Prop := 1 ≤ x ≤ w - 2 ∧ 1 ≤ y ≤ h - 2.

(* A pixel of the outermost rows and columns. *)
Definition border (w h x y : Z) : Prop :=
  0 ≤ x < w ∧ 0 ≤ y < h ∧ (y = 0 ∨ y = h - 1 ∨ x = 0 ∨ x = w - 1).

(* All pixels have the colour [(r, g, b)]. *)
Definition constant_color (img : Image) (r g b : Z) : Prop :=
  ∀ x y, 0 ≤ x < width img → 0 ≤ y < height img →
    pixel img x y 0 = r ∧ pixel img x y 1 = g ∧ pixel img x y 2 = b.

(* The three stores that end an iteration. *)
Definition write3 (temp : list Z) (idx : Z) (v0 v1 v2 : Z) : list Z :=
  <[Z.to_nat (idx + 2) := v2]> (<[Z.to_nat (idx + 1) := v1]> (<[Z.to_nat idx := v0]> temp)).

(** ** The two policies, as the specification words them *)

Definition offsets : list Z := [-1; 0; 1].

Definition sum_of (l : list Z) : Z := foldr Z.add 0 l.

(* The sum of the nine samples of channel [c] around [(x, y)]. *)
Definition neighborhood_sum (w : Z) (d : list Z) (x y c : Z) : Z :=
  sum_of ((λ dy, sum_of ((λ dx, sample w d (x + dx) (y + dy) c) <$> offsets)) <$> offsets).

(* Average policy: the sum divided by 9, truncated. *)
Definition average (w : Z) (d : list Z) (x y c : Z) : Z :=
  neighborhood_sum w d x y c ÷ 9.

Definition Kx : list (list Z) := [[-1; 0; 1]; [-2; 0; 2]; [-1; 0; 1]].
Definition Ky : list (list Z) := [[-1; -2; -1]; [0; 0; 0]; [1; 2; 1]].

(* [K[dy][dx]] for [dx, dy] in [-1, 1]. *)
Definition kernel_at (K : list (list Z)) (dy dx : Z) : Z :=
  default 0 (K !! Z.to_nat (dy + 1) ≫= λ row, row !! Z.to_nat (dx + 1)).

(* The convolution of the neighbourhood with the kernel [K]. *)
Definition convolve (K : list (list Z)) (w : Z) (d : list Z) (x y c : Z) : Z :=
  sum_of ((λ dy,
    sum_of ((λ dx, kernel_at K dy dx * sample w d (x + dx) (y + dy) c) <$> offsets))
    <$> offsets).

(* Sobel policy: the Euclidean norm of the two gradients, truncated to an
   integer and clamped at 255. *)
Definition gradient_magnitude (w : Z) (d : list Z) (x y c : Z) : Z :=
  let gx := convolve Kx w d x y c in
  let gy := convolve Ky w d x y c in
  Z.min 255 (Z.sqrt (gx * gx + gy * gy)).

(** ** Text: characters, [%s], [%d], [atoi] *)

Definition bytes_of (s : string) : list Z :=
  (λ a, Z.of_N (N_of_ascii a)) <$> list_ascii_of_string s.

(* [isspace] in the C locale: space, \t, \n, \v, \f, \r. *)
Definition isspace (c : Z) : bool := (c =? 32) || ((9 <=? c) && (c <=? 13)).

Definition isdigit (c : Z) : bool := (48 <=? c) && (c <=? 57).

(* A white-space directive, and the white space skipped before a conversion. *)
Fixpoint skip_space (s : list Z) : list Z :=
  match s with
  | c :: s' => if isspace c then skip_space s' else s
  | [] => []
  end.

(* The longest run of characters that are not white space, and what follows. *)
Fixpoint scan_word (s : list Z) : list Z * list Z :=
  match s with
  | c :: s' =>
      if isspace c then ([], s)
      else let '(word, rest) := scan_word s' in (c :: word, rest)
  | [] => ([], [])
  end.

Fixpoint scan_digits (s : list Z) : list Z * list Z :=
  match s with
  | c :: s' =>
      if isdigit c then let '(ds, rest) := scan_digits s' in (c :: ds, rest)
      else ([], s)
  | [] => ([], [])
  end.

Definition decimal (ds : list Z) : Z := foldl (λ acc c, 10 * acc + (c - 48)) 0 ds.

Inductive conversion : Type :=
| Matched (v : Z) (rest : list Z)   (* a value was read *)
| Failed (rest : list Z)            (* no digits: nothing is assigned *)
| Overflow.                         (* the number does not fit an [int] *)

(* [%d]: white space, an optional sign, decimal digits. *)
Definition scan_int (s : list Z) : conversion :=
  let s := skip_space s in
  let '(negative, s1) :=
    match s with
    | 45 :: s' => (true, s')
    | 43 :: s' => (false, s')
    | _ => (false, s)
    end in
  let '(ds, rest) := scan_digits s1 in
  match ds with
  | [] => Failed s1
  | _ :: _ =>
      let v := if negative then - decimal ds else decimal ds in
      if in_int v then Matched v rest else Overflow
  end.

(* [atoi(s)]: 0 when [s] does not start with a number. *)
Definition atoi (s : string) : result Z :=
  match scan_int (bytes_of s) with
  | Matched v _ => Val v
  | Failed _ => Val 0
  | Overflow => Undefined
  end.

(* A [char] array read as a string: the characters before the first NUL.
   An array without a NUL is not a string. *)
Fixpoint cstring (a : list Z) : option (list Z) :=
  match a with
  | [] => None
  | c :: a' => if c =? 0 then Some [] else cons c <$> cstring a'
  end.

(* [%d] of [fprintf]. *)
Definition print_int (v : Z) : list Z :=
  bytes_of (DecimalString.NilZero.string_of_int (Z.to_int v)).

(** ** Files *)

(* The files that exist, with their contents, and the paths [fopen] can open
   for writing. *)
Record world : Type := mkWorld {
  files : gmap string (list Z);
  writable : string → bool
}.

(** ** readPPM *)

(* The locals [format], [w], [h], [maxColor] of [readPPM]. *)
Record header : Type := mkHeader {
  format : list Z;
  hd_w : Z;
  hd_h : Z;
  maxColor : Z
}.

(* [fscanf(fp, "%s\n%d %d\n%d\n", format, &w, &h, &maxColor)].  [init] holds
   the indeterminate initial values of the four locals; a conversion that
   fails ends the call and leaves the remaining locals as they were.  The
   word and its terminating NUL are stored into [char format[3]] whatever
   their length.  The result is the locals and the unread rest of the file. *)
Definition scan_header (init : header) (s : list Z) : result (header * list Z) :=
  let '(word, s) := scan_word (skip_space s) in
  match word with
  | [] => Val (init, s)
  | _ :: _ =>
      if (3 <? length word + 1)%nat then Undefined
      else
        let fmt := word ++ [0] ++ drop (length word + 1) (format init) in
        match scan_int (skip_space s) with
        | Overflow => Undefined
        | Failed s => Val (mkHeader fmt (hd_w init) (hd_h init) (maxColor init), s)
        | Matched w s =>
            match scan_int (skip_space s) with
            | Overflow => Undefined
            | Failed s => Val (mkHeader fmt w (hd_h init) (maxColor init), s)
            | Matched h s =>
                match scan_int (skip_space s) with
                | Overflow => Undefined
                | Failed s => Val (mkHeader fmt w h (maxColor init), s)
                | Matched m s => Val (mkHeader fmt w h m, skip_space s)
                end
            end
        end
  end.

(* [strcmp(format, "P6") != 0 || maxColor != MAX_COLOR] *)
Definition unsupported (hd : header) : result bool :=
  match cstring (format hd) with
  | None => Undefined
  | Some str =>
      Val (negb (bool_decide (str = bytes_of "P6")) || negb (maxColor hd =? MAX_COLOR))
  end.

(* [fread(block, 3, count, fp)]: the bytes that the file still holds, at
   most [3 * count] of them, replace the beginning of the block; the bytes of
   a last item that the file holds only in part are stored too. *)
Definition fread3 (block : list Z) (count : Z) (s : list Z) : list Z :=
  let bytes := Z.to_nat (Z.min (3 * count) (Z.of_nat (length s))) in
  take bytes s ++ drop bytes block.

Definition readPPM (init : header) (junk : nat → Z) (filename : string)
    (fs : world) : result Image :=
  match files fs !! filename with
  | None => Exit 1
  | Some content =>
      '(hd, rest) ← scan_header init content;
      bad ← unsupported hd;
      if bad : bool then Exit 1
      else
        block ← alloc_pixels junk (hd_w hd) (hd_h hd);
        count ← int_val (hd_w hd * hd_h hd);
        Val (mkImage (hd_w hd) (hd_h hd) (fread3 block count rest))
  end.

(** ** writePPM *)

(* [fprintf(fp, "P6\n%d %d\n%d\n", img.width, img.height, MAX_COLOR)] *)
Definition ppm_header (w h : Z) : list Z :=
  bytes_of "P6" ++ [10] ++ print_int w ++ [32] ++ print_int h ++ [10]
  ++ print_int MAX_COLOR ++ [10].

Definition writePPM (filename : string) (img : Image) (fs : world) : result world :=
  if writable fs filename then
    count ← int_val (width img * height img);
    if (count <? 0) || (Z.of_nat (length (data img)) <? 3 * count) then Undefined
    else
      Val (mkWorld
             (<[filename := ppm_header (width img) (height img)
                            ++ take (Z.to_nat (3 * count)) (data img)]> (files fs))
             (writable fs))
  else Exit 1.

(** ** main *)

(* What the run time decides: the OpenMP schedule, the indeterminate initial
   values of the locals of the two [readPPM] calls, and the contents of the
   four blocks [malloc] hands out. *)
Record runtime : Type := mkRuntime {
  omp_schedule : list (Z * Z) → list (Z * Z);
  locals1 : header;
  locals2 : header;
  read_block1 : nat → Z;
  temp_block1 : nat → Z;
  read_block2 : nat → Z;
  temp_block2 : nat → Z
}.

(* The two [if]s on [filter_type]. *)
Definition apply_filter (sched : list (Z * Z) → list (Z * Z)) (junk : nat → Z)
    (filter_type : Z) (img : Image) (use_openmp : bool) : result Image :=
  if filter_type =? 1 then applyBlur sched junk img use_openmp
  else if filter_type =? 2 then applyEdgeDetection sched junk img use_openmp
  else Val img.

(* How the process ends: with a status and the files it leaves, or without
   defined behaviour. *)
Inductive outcome : Type :=
| Terminated (status : Z) (fs : world)
| Crashed.

Definition finish {A : Type} (fs : world) (r : result A) (k : A → outcome) : outcome :=
  match r with
  | Val a => k a
  | Exit status => Terminated status fs
  | Undefined => Crashed
  end.

Definition main (rt : runtime) (argv : list string) (fs : world) : outcome :=
  match argv with
  | [_; input; output; filter] =>
      finish fs (readPPM (locals1 rt) (read_block1 rt) input fs) (λ img,
      finish fs (atoi filter) (λ filter_type,
      finish fs (apply_filter (omp_schedule rt) (temp_block1 rt) filter_type img false) (λ _,
      finish fs (readPPM (locals2 rt) (read_block2 rt) input fs) (λ img,
      finish fs (apply_filter (omp_schedule rt) (temp_block2 rt) filter_type img true) (λ img,
      finish fs (writePPM output img fs) (λ fs',
      Terminated 0 fs'))))))
  | _ => Terminated 1 fs
  end.

(** ** Sample inputs *)

(* 3x3, all white. *)
Definition white3 : Image := mkImage 3 3 (replicate 27 255).

(* 3x3, the samples 0, 9, 18, ..., 234. *)
Definition ramp3 : Image := mkImage 3 3 ((λ i, 9 * Z.of_nat i) <$> seq 0 27).

(* 3x3, two black columns and a white one. *)
Definition step3 : Image :=
  mkImage 3 3 (concat (replicate 3 [0; 0; 0; 0; 0; 0; 255; 255; 255])).

(* 1x1, white. *)
Definition dot1 : Image := mkImage 1 1 [255; 255; 255].

(* Scratch memory holding zeros (fresh pages), and holding sevens. *)
Definition zeros : nat → Z := λ _, 0.
Definition sevens : nat → Z := λ _, 7.

(* The schedule that keeps the program order. *)
Definition sequential : list (Z * Z) → list (Z * Z) := id.

Definition zero_locals : header := mkHeader [0; 0; 0] 0 0 0.

Definition rt0 : runtime :=
  mkRuntime sequential zero_locals zero_locals zeros zeros zeros zeros.

(* A 1x1 image file with the given magic word and maximum sample value. *)
Definition ppm_1x1 (magic maxval : string) : list Z :=
  bytes_of magic ++ [10] ++ bytes_of "1 1" ++ [10] ++ bytes_of maxval
  ++ [10; 200; 100; 50].

(* A disk that holds one file, [in.ppm]; every path can be written. *)
Definition disk (content : list Z) : world :=
  mkWorld {[ "in.ppm"%string := content ]} (λ _, true).

(** ** Notions used by the further properties *)

(* The digits of a decimal numeral, as characters. *)
Definition uint_bytes (d : Decimal.uint) : list Z :=
  bytes_of (DecimalString.NilEmpty.string_of_uint d).

(* Does the text start with a character of the given class? *)
Definition starts_with (P : Z → bool) (s : list Z) : bool :=
  match s with
  | c :: _ => P c
  | [] => false
  end.

(* The file [writePPM] writes for an image. *)
Definition encode (img : Image) : list Z :=
  ppm_header (width img) (height img) ++ data img.

(* White space that separates two fields: at least one character. *)
Definition blank (ws : list Z) : Prop :=
  ws ≠ [] ∧ Forall (λ c, isspace c = true) ws.

(* A header: a magic word, a width, a height and a maximum, separated and
   followed by white space. *)
Definition header_text (magic ws1 : list Z) (w : Z) (ws2 : list Z) (h : Z)
    (ws3 : list Z) (m : Z) (ws4 : list Z) : list Z :=
  magic ++ ws1 ++ print_int w ++ ws2 ++ print_int h ++ ws3 ++ print_int m ++ ws4.


(* 1x1, the first sample a line feed. *)
Definition feed1 : Image := mkImage 1 1 [10; 100; 50].

(* Four bytes of raster: one pixel and a third of the next. *)
Definition short_raster : list Z := [200; 100; 50; 25].

(* 4x4, the samples 0, 5, 10, ..., 235. *)
Definition ramp4 : Image := mkImage 4 4 ((λ i, 5 * Z.of_nat i) <$> seq 0 48).

(** * Properties *)

(** ** The magnitude table *)

Lemma entries_ok_sound bits : ∀ base s,
  entries_ok bits base = true →
  base ≤ s < base + 2 ^ Z.of_nat bits →
  magnitude_entry_ok s = true.
Proof.
  induction bits as [|b IH]; intros base s Hok Hs.
  - simpl in *. replace s with base by lia. exact Hok.
  - cbn [entries_ok] in Hok. apply andb_prop in Hok as [H1 H2].
    rewrite Nat2Z.inj_succ, Z.pow_succ_r in Hs by lia.
    destruct (Z_lt_ge_dec s (base + 2 ^ Z.of_nat b)).
    + apply (IH base); [exact H1 | lia].
    + apply (IH (base + 2 ^ Z.of_nat b)); [exact H2 | lia].
Qed.

Lemma magnitude_table : entries_ok 21 0 = true.
Proof. vm_compute. reflexivity. Qed.

Lemma double_255 : double_to_uchar (int_to_double 255) = Val 255.
Proof. vm_compute. reflexivity. Qed.

Lemma magnitude_entry_ok_spec s :
  0 ≤ s → magnitude_entry_ok s = true →
  magnitude_of_sum s = Val (Z.min (Z.sqrt s) 255).
Proof.
  intros Hs. unfold magnitude_entry_ok.
  destruct (Z.ltb_spec s 65536) as [Hlt|Hge].
  - destruct (magnitude_of_sum s) as [v| |]; try discriminate.
    intros Hv. apply Z.eqb_eq in Hv. by subst.
  - unfold sqrt_not_below_255, magnitude_of_sum, fmin.
    intros [Hnan Hnlt]%andb_prop.
    apply negb_true_iff in Hnan. apply negb_true_iff in Hnlt.
    rewrite Hnan, Hnlt.
    replace (PrimFloat.is_nan (int_to_double 255)) with false by (vm_compute; reflexivity).
    rewrite double_255. f_equal.
    assert (256 ≤ Z.sqrt s).
    { change 256 with (Z.sqrt (256 * 256)). apply Z.sqrt_le_mono. lia. }
    lia.
Qed.

(** Sums of squares below 2^21: the stored byte is the integer square root,
    clamped at 255. *)
Lemma magnitude_of_sum_spec s :
  0 ≤ s < 2097152 →
  magnitude_of_sum s = Val (Z.min (Z.sqrt s) 255).
Proof.
  intros Hs. apply magnitude_entry_ok_spec; [lia|].
  apply (entries_ok_sound 21 0); [exact magnitude_table | cbn; lia].
Qed.

(** The magnitude on a few sums: exact roots, truncation, clamping. *)
Example magnitude_3_4 : magnitude 3 4 = Val 5.
Proof. vm_compute. reflexivity. Qed.

Example magnitude_truncates : magnitude 1 1 = Val 1 ∧ magnitude 2 2 = Val 2.
Proof. split; vm_compute; reflexivity. Qed.

Example magnitude_clamps : magnitude 1020 (-1020) = Val 255.
Proof. vm_compute. reflexivity. Qed.

(** ** Loops *)

Lemma bind_val {A B : Type} (a : A) (k : A → result B) : (Val a ≫= k) = k a.
Proof. reflexivity. Qed.

Lemma for_le_window {S : Type} (body : Z → S → result S) (s : S) :
  for_le (-1) 1 body s = (s1 ← body (-1) s; s2 ← body 0 s1; s3 ← body 1 s2; Val s3).
Proof. reflexivity. Qed.

Lemma load_sample w h d x y c :
  length d = Z.to_nat (3 * w * h) →
  0 ≤ x < w → 0 ≤ y < h → 0 ≤ c < 3 →
  load d (3 * (y * w + x) + c) = Val (sample w d x y c).
Proof.
  intros Hlen Hx Hy Hc. unfold load, sample.
  destruct (Z.ltb_spec (3 * (y * w + x) + c) 0) as [Hneg|_]; [nia|].
  destruct (d !! Z.to_nat (3 * (y * w + x) + c)) as [v|] eqn:E; [done|].
  apply lookup_ge_None in E. nia.
Qed.

Lemma blur_step_spec w h d x y dy dx sumR sumG sumB count :
  length d = Z.to_nat (3 * w * h) →
  0 ≤ x + dx < w → 0 ≤ y + dy < h →
  blur_step w d y x dy dx (sumR, sumG, sumB, count) =
  Val (sumR + sample w d (x + dx) (y + dy) 0,
       sumG + sample w d (x + dx) (y + dy) 1,
       sumB + sample w d (x + dx) (y + dy) 2, count + 1).
Proof.
  intros Hlen Hx Hy. unfold blur_step.
  rewrite <- (Z.add_0_r (3 * ((y + dy) * w + (x + dx)))) at 1.
  rewrite !(load_sample w h) by (done || lia).
  reflexivity.
Qed.

Ltac step_window lem :=
  repeat first
    [ rewrite for_le_window
    | rewrite bind_val
    | rewrite lem by (done || lia) ];
  cbv beta.

Lemma val_quad {A : Type} (a b c a' b' c' : Z) (n : A) :
  a = a' → b = b' → c = c' → Val (a, b, c, n) = Val (a', b', c', n).
Proof. by intros -> -> ->. Qed.

Lemma blur_window w h d x y :
  length d = Z.to_nat (3 * w * h) →
  interior w h x y →
  for_le (-1) 1 (λ dy acc,
     for_le (-1) 1 (λ dx acc, blur_step w d y x dy dx acc) acc) (0, 0, 0, 0) =
  Val (neighborhood_sum w d x y 0, neighborhood_sum w d x y 1,
       neighborhood_sum w d x y 2, 9).
Proof.
  intros Hlen [Hx Hy].
  step_window (blur_step_spec w h).
  cbv [neighborhood_sum sum_of offsets fmap list_fmap foldr].
  apply val_quad; lia.
Qed.

Lemma sample_uchar w d x y c : Forall is_uchar d → is_uchar (sample w d x y c).
Proof.
  intros Hd. unfold sample.
  destruct (d !! Z.to_nat (3 * (y * w + x) + c)) as [v|] eqn:E; simpl.
  - eapply Forall_lookup_1; eassumption.
  - unfold is_uchar. lia.
Qed.

(** The sum of a neighbourhood fits an [int] with room to spare. *)
Lemma blur_sum_bounds w d x y c :
  Forall is_uchar d → 0 ≤ neighborhood_sum w d x y c ≤ 2295.
Proof.
  intros Hd. cbv [neighborhood_sum sum_of offsets fmap list_fmap foldr].
  pose proof (λ dx dy, sample_uchar w d (x + dx) (y + dy) c Hd) as Hs.
  unfold is_uchar in Hs.
  pose proof (Hs (-1) (-1)); pose proof (Hs 0 (-1)); pose proof (Hs 1 (-1)).
  pose proof (Hs (-1) 0); pose proof (Hs 0 0); pose proof (Hs 1 0).
  pose proof (Hs (-1) 1); pose proof (Hs 0 1); pose proof (Hs 1 1).
  lia.
Qed.

Lemma average_uchar w d x y c : Forall is_uchar d → is_uchar (average w d x y c).
Proof.
  intros Hd. pose proof (blur_sum_bounds w d x y c Hd) as Hb.
  unfold is_uchar, average.
  rewrite Z.quot_div_nonneg by lia.
  split; [apply Z.div_pos; lia | ].
  apply Z.lt_succ_r. apply Z.div_lt_upper_bound; lia.
Qed.

Lemma int_div_9 s : 0 ≤ s ≤ 2295 → int_div s 9 = Val (s ÷ 9).
Proof.
  intros Hs. unfold int_div, int_val, in_int, INT_MIN, INT_MAX. simpl.
  assert (0 ≤ s ÷ 9 ≤ 255).
  { rewrite Z.quot_div_nonneg by lia.
    split; [apply Z.div_pos; lia | ].
    apply Z.lt_succ_r. apply Z.div_lt_upper_bound; lia. }
  destruct (Z.leb_spec (-2147483648) (s ÷ 9)); [|lia].
  destruct (Z.leb_spec (s ÷ 9) 2147483647); [|lia].
  reflexivity.
Qed.

Lemma to_uchar_id v : is_uchar v → to_uchar v = v.
Proof. unfold is_uchar, to_uchar. intros. apply Z.mod_small. lia. Qed.

Lemma store_in_bounds (temp : list Z) idx v :
  0 ≤ idx → (Z.to_nat idx < length temp)%nat →
  store temp idx v = Val (<[Z.to_nat idx := v]> temp).
Proof.
  intros H0 Hlt. unfold store.
  destruct (Z.ltb_spec idx 0); [lia|].
  destruct (Nat.ltb_spec (Z.to_nat idx) (length temp)); [done | lia].
Qed.

Lemma pixel_index_bound w h x y c :
  0 ≤ x < w → 0 ≤ y < h → 0 ≤ c < 3 →
  0 ≤ 3 * (y * w + x) + c < 3 * w * h.
Proof. intros. nia. Qed.

Lemma blur_pixel_spec w h d x y (temp : list Z) :
  length d = Z.to_nat (3 * w * h) → Forall is_uchar d →
  length temp = Z.to_nat (3 * w * h) →
  interior w h x y →
  blur_pixel w d y x temp =
  Val (write3 temp (3 * (y * w + x))
         (average w d x y 0) (average w d x y 1) (average w d x y 2)).
Proof.
  intros Hlen Hd Htemp Hint. unfold blur_pixel.
  rewrite (blur_window w h) by done. rewrite bind_val.
  pose proof (blur_sum_bounds w d x y 0 Hd).
  pose proof (blur_sum_bounds w d x y 1 Hd).
  pose proof (blur_sum_bounds w d x y 2 Hd).
  rewrite !int_div_9 by done. rewrite !bind_val.
  fold (average w d x y 0) (average w d x y 1) (average w d x y 2).
  rewrite !to_uchar_id by (by apply average_uchar).
  destruct Hint as [Hx Hy].
  pose proof (pixel_index_bound w h x y 0).
  pose proof (pixel_index_bound w h x y 2).
  unfold write3.
  rewrite store_in_bounds by lia. rewrite !bind_val.
  rewrite to_uchar_id by (by apply average_uchar).
  rewrite store_in_bounds by (rewrite ?length_insert; lia). rewrite !bind_val.
  rewrite to_uchar_id by (by apply average_uchar).
  rewrite store_in_bounds by (rewrite ?length_insert; lia).
  reflexivity.
Qed.

(** ** The stores of one iteration *)

Lemma write3_length (temp : list Z) idx v0 v1 v2 :
  length (write3 temp idx v0 v1 v2) = length temp.
Proof. unfold write3. by rewrite !length_insert. Qed.

Lemma write3_lookup (temp : list Z) p q c (v : Z → Z) :
  0 ≤ p → 0 ≤ q → 0 ≤ c < 3 →
  (Z.to_nat (3 * p + 2) < length temp)%nat →
  write3 temp (3 * p) (v 0) (v 1) (v 2) !! Z.to_nat (3 * q + c) =
  if decide (q = p) then Some (v c) else temp !! Z.to_nat (3 * q + c).
Proof.
  intros Hp Hq Hc Hlen. unfold write3.
  destruct (decide (q = p)) as [-> | Hne].
  - assert (c = 0 ∨ c = 1 ∨ c = 2) as [-> | [-> | ->]] by lia.
    + rewrite !list_lookup_insert_ne by lia.
      rewrite Z.add_0_r. apply list_lookup_insert_eq. lia.
    + rewrite list_lookup_insert_ne by lia.
      apply list_lookup_insert_eq. rewrite length_insert. lia.
    + apply list_lookup_insert_eq. rewrite !length_insert. lia.
  - by rewrite !list_lookup_insert_ne by lia.
Qed.

Lemma pixel_number_inj w x y x' y' :
  0 ≤ x < w → 0 ≤ x' < w → y * w + x = y' * w + x' → x = x' ∧ y = y'.
Proof.
  intros Hx Hx' E.
  assert (y = y') by nia. subst. lia.
Qed.

(** ** Running a list of iterations *)

Section LoopNest.
Variables (w h : Z).
Variable body : Z → Z → list Z → result (list Z).
Variable val : Z → Z → Z → Z.

Hypothesis body_spec : ∀ x y (temp : list Z),
  length temp = Z.to_nat (3 * w * h) → interior w h x y →
  body y x temp =
  Val (write3 temp (3 * (y * w + x)) (val x y 0) (val x y 1) (val x y 2)).

Lemma run_iterations_lookup (its : list (Z * Z)) : ∀ temp : list Z,
  (∀ x y, (y, x) ∈ its → interior w h x y) →
  length temp = Z.to_nat (3 * w * h) →
  ∃ temp' : list Z,
    run_iterations body its temp = Val temp' ∧
    length temp' = Z.to_nat (3 * w * h) ∧
    ∀ x y c, 0 ≤ x < w → 0 ≤ y < h → 0 ≤ c < 3 →
      temp' !! Z.to_nat (3 * (y * w + x) + c) =
      if decide ((y, x) ∈ its) then Some (val x y c)
      else temp !! Z.to_nat (3 * (y * w + x) + c).
Proof.
  induction its as [|[y0 x0] its IH]; intros temp Hin Hlen.
  - exists temp. split; [done|]. split; [done|].
    intros x y c _ _ _. destruct (decide ((y, x) ∈ [])) as [H|_]; [|done].
    by apply elem_of_nil in H.
  - assert (interior w h x0 y0) as Hint0 by (apply Hin; left).
    cbn [run_iterations]. rewrite body_spec by done. rewrite bind_val.
    destruct (IH (write3 temp (3 * (y0 * w + x0)) (val x0 y0 0) (val x0 y0 1) (val x0 y0 2)))
      as (temp' & Hrun & Hlen' & Hlook).
    { intros x y H. apply Hin. by right. }
    { by rewrite write3_length. }
    exists temp'. split; [done|]. split; [done|].
    intros x y c Hx Hy Hc. rewrite Hlook by done.
    destruct Hint0 as [Hx0 Hy0].
    pose proof (pixel_index_bound w h x0 y0 2).
    destruct (decide ((y, x) ∈ its)) as [Hmem|Hnot].
    + rewrite decide_True; [done | by right].
    + rewrite (write3_lookup temp _ _ _ (val x0 y0)) by nia.
      destruct (decide (y * w + x = y0 * w + x0)) as [E|NE].
      * apply pixel_number_inj in E as [-> ->]; [|lia..].
        rewrite decide_True; [done | left].
      * rewrite decide_False; [done|].
        intros [E|?]%elem_of_cons; [|done].
        by injection E as -> ->.
Qed.
End LoopNest.

Lemma run_iterations_app body (l1 l2 : list (Z * Z)) (temp : list Z) :
  run_iterations body (l1 ++ l2) temp =
  (t ← run_iterations body l1 temp; run_iterations body l2 t).
Proof.
  revert temp. induction l1 as [|[y x] l1 IH]; intros temp; [done|].
  cbn [app run_iterations].
  destruct (body y x temp) as [t| |]; [|done..].
  rewrite !bind_val. apply IH.
Qed.

(** The inner loop is the iterations of one row, left to right. *)
Lemma for_loop_row body y n : ∀ i (temp : list Z),
  for_loop n i (λ x t, body y x t) temp =
  run_iterations body (pair y <$> seqZ i (Z.of_nat n)) temp.
Proof.
  induction n as [|n IH]; intros i temp; [done|].
  rewrite seqZ_cons by lia. cbn [for_loop fmap list_fmap run_iterations].
  destruct (body y i temp) as [t| |]; [|done..].
  rewrite !bind_val, IH. do 3 f_equal; lia.
Qed.

Lemma for_lt_row body y lo hi (temp : list Z) :
  for_lt lo hi (λ x t, body y x t) temp =
  run_iterations body (pair y <$> seqZ lo (hi - lo)) temp.
Proof.
  unfold for_lt. rewrite for_loop_row.
  destruct (Z_lt_ge_dec (hi - lo) 0).
  - unfold seqZ. by replace (Z.to_nat (hi - lo)) with 0%nat by lia.
  - by rewrite Z2Nat.id by lia.
Qed.

(** The two nested loops are the iterations in row-major order. *)
Lemma for_loop_nest body w n : ∀ i (temp : list Z),
  for_loop n i (λ y t, for_lt 1 (w - 1) (λ x t, body y x t) t) temp =
  run_iterations body
    (y ← seqZ i (Z.of_nat n); pair y <$> seqZ 1 (w - 1 - 1)) temp.
Proof.
  induction n as [|n IH]; intros i temp; [done|].
  rewrite (seqZ_cons i) by lia. cbn [for_loop mbind list_bind].
  rewrite run_iterations_app, for_lt_row.
  destruct (run_iterations body (pair i <$> seqZ 1 (w - 1 - 1)) temp) as [t| |];
    [|done..].
  rewrite !bind_val, IH. do 3 f_equal; lia.
Qed.

Lemma for_lt_nest body w h (temp : list Z) :
  for_lt 1 (h - 1) (λ y t, for_lt 1 (w - 1) (λ x t, body y x t) t) temp =
  run_iterations body (iterations w h) temp.
Proof.
  unfold for_lt at 1, iterations. rewrite for_loop_nest.
  destruct (Z_lt_ge_dec (h - 1 - 1) 0).
  - unfold seqZ. by replace (Z.to_nat (h - 1 - 1)) with 0%nat by lia.
  - by rewrite Z2Nat.id by lia.
Qed.

Lemma elem_of_iterations w h x y : (y, x) ∈ iterations w h ↔ interior w h x y.
Proof.
  unfold iterations, interior. rewrite list_elem_of_bind. split.
  - intros (y' & Hx & Hy%elem_of_seqZ).
    apply list_elem_of_fmap in Hx as (x' & E & Hx%elem_of_seqZ).
    injection E as -> ->. lia.
  - intros [Hx Hy]. exists y. split; [|apply elem_of_seqZ; lia].
    apply list_elem_of_fmap. exists x. split; [done|apply elem_of_seqZ; lia].
Qed.

(** ** The loop nest, sequential or scheduled *)

Section LoopNestResult.
Variables (w h : Z).
Variable body : Z → Z → list Z → result (list Z).
Variable val : Z → Z → Z → Z.

Hypothesis h_fits : in_int (h - 1) = true.
Hypothesis body_spec : ∀ x y (temp : list Z),
  length temp = Z.to_nat (3 * w * h) → interior w h x y →
  body y x temp =
  Val (write3 temp (3 * (y * w + x)) (val x y 0) (val x y 1) (val x y 2)).

Lemma loop_nest_lookup sched use_openmp (temp : list Z) :
  schedule sched →
  length temp = Z.to_nat (3 * w * h) →
  ∃ temp' : list Z,
    loop_nest sched use_openmp w h body temp = Val temp' ∧
    length temp' = Z.to_nat (3 * w * h) ∧
    ∀ x y c, 0 ≤ x < w → 0 ≤ y < h → 0 ≤ c < 3 →
      (interior w h x y →
       temp' !! Z.to_nat (3 * (y * w + x) + c) = Some (val x y c)) ∧
      (¬ interior w h x y →
       temp' !! Z.to_nat (3 * (y * w + x) + c) =
       temp !! Z.to_nat (3 * (y * w + x) + c)).
Proof.
  intros Hsched Hlen.
  set (its := if use_openmp then sched (iterations w h) else iterations w h).
  assert (∀ x y, (y, x) ∈ its ↔ interior w h x y) as Hits.
  { intros x y. rewrite <- elem_of_iterations. unfold its.
    destruct use_openmp; [|done]. by rewrite (Hsched (iterations w h)). }
  destruct (run_iterations_lookup w h body val body_spec its temp)
    as (temp' & Hrun & Hlen' & Hlook); [by intros x y ?%Hits | done |].
  exists temp'. split; [|split; [done|]].
  - unfold loop_nest, int_val. rewrite h_fits, bind_val.
    destruct use_openmp; [done|]. by rewrite for_lt_nest.
  - intros x y c Hx Hy Hc. rewrite Hlook by done. split; intros Hi.
    + rewrite decide_True; [done | by apply Hits].
    + rewrite decide_False; [done | by rewrite Hits].
Qed.
End LoopNestResult.

(** ** A whole filter: allocation, loop nest, copy back *)

Lemma in_int_spec v : in_int v = true ↔ INT_MIN ≤ v ≤ INT_MAX.
Proof. unfold in_int. rewrite andb_true_iff, !Z.leb_le. done. Qed.

Lemma int_val_fits v : INT_MIN ≤ v ≤ INT_MAX → int_val v = Val v.
Proof. intros H%in_int_spec. unfold int_val. by rewrite H. Qed.

Lemma malloc_length junk n : length (malloc junk n) = Z.to_nat n.
Proof. unfold malloc. by rewrite length_fmap, length_seq. Qed.

Lemma malloc_lookup junk n (i : nat) :
  (i < Z.to_nat n)%nat → malloc junk n !! i = Some (to_uchar (junk i)).
Proof.
  intros Hi. unfold malloc. rewrite list_lookup_fmap, lookup_seq_lt by done.
  reflexivity.
Qed.

Lemma alloc_pixels_wf junk img :
  wf_image img →
  alloc_pixels junk (width img) (height img) =
  Val (malloc junk (3 * width img * height img)).
Proof.
  intros (Hw & Hh & Hmax & _). unfold alloc_pixels, INT_MAX, INT_MIN in *.
  rewrite int_val_fits by (unfold INT_MIN, INT_MAX; nia). rewrite bind_val.
  rewrite int_val_fits by (unfold INT_MIN, INT_MAX; nia). rewrite bind_val.
  destruct (Z.ltb_spec (3 * width img * height img) 0); [nia | done].
Qed.

Lemma memcpy_whole (dst src : list Z) n :
  0 ≤ n → length dst = Z.to_nat n → length src = Z.to_nat n →
  memcpy dst src n = Val src.
Proof.
  intros Hn Hd Hs. unfold memcpy.
  destruct (Z.ltb_spec n 0); [lia|].
  rewrite Hd, Hs, Nat.leb_refl. simpl.
  rewrite <- Hs at 1. rewrite take_ge by lia.
  rewrite <- Hd. rewrite drop_all. by rewrite app_nil_r.
Qed.

Section Filter.
Variables (img : Image).
Variable body : Z → Z → list Z → result (list Z).
Variable val : Z → Z → Z → Z.

Hypothesis img_wf : wf_image img.
Hypothesis body_spec : ∀ x y (temp : list Z),
  length temp = Z.to_nat (3 * width img * height img) →
  interior (width img) (height img) x y →
  body y x temp =
  Val (write3 temp (3 * (y * width img + x)) (val x y 0) (val x y 1) (val x y 2)).

Lemma filter_result sched junk use_openmp :
  schedule sched →
  ∃ out : Image,
    (temp ← alloc_pixels junk (width img) (height img);
     temp ← loop_nest sched use_openmp (width img) (height img) body temp;
     d ← memcpy (data img) temp (3 * width img * height img);
     Val (mkImage (width img) (height img) d)) = Val out ∧
    width out = width img ∧ height out = height img ∧
    length (data out) = length (data img) ∧
    ∀ x y c, 0 ≤ x < width img → 0 ≤ y < height img → 0 ≤ c < 3 →
      (interior (width img) (height img) x y → pixel out x y c = val x y c) ∧
      (¬ interior (width img) (height img) x y →
       pixel out x y c =
       to_uchar (junk (Z.to_nat (3 * (y * width img + x) + c)))).
Proof.
  intros Hsched.
  pose proof img_wf as (Hw & Hh & Hmax & Hlen & Hd).
  rewrite alloc_pixels_wf by done. rewrite bind_val.
  destruct (loop_nest_lookup (width img) (height img) body val) with
    (sched := sched) (use_openmp := use_openmp)
    (temp := malloc junk (3 * width img * height img))
    as (temp' & Hrun & Hlen' & Hlook); [| done | done | by rewrite malloc_length |].
  { apply in_int_spec. unfold INT_MIN, INT_MAX in *. nia. }
  rewrite Hrun, bind_val.
  rewrite memcpy_whole by (done || nia). rewrite bind_val.
  exists (mkImage (width img) (height img) temp').
  split; [done|]. split; [done|]. split; [done|]. split; [simpl; congruence|].
  intros x y c Hx Hy Hc. unfold pixel, sample. simpl.
  destruct (Hlook x y c Hx Hy Hc) as [Hin Hout].
  pose proof (pixel_index_bound (width img) (height img) x y c Hx Hy Hc).
  split; intros Hi.
  - by rewrite Hin.
  - rewrite Hout by done. rewrite malloc_lookup by lia. done.
Qed.
End Filter.

Lemma applyBlur_result sched junk img use_openmp :
  schedule sched → wf_image img →
  ∃ out : Image,
    applyBlur sched junk img use_openmp = Val out ∧
    width out = width img ∧ height out = height img ∧
    length (data out) = length (data img) ∧
    ∀ x y c, 0 ≤ x < width img → 0 ≤ y < height img → 0 ≤ c < 3 →
      (interior (width img) (height img) x y →
       pixel out x y c = average (width img) (data img) x y c) ∧
      (¬ interior (width img) (height img) x y →
       pixel out x y c =
       to_uchar (junk (Z.to_nat (3 * (y * width img + x) + c)))).
Proof.
  intros Hsched Hwf. unfold applyBlur.
  apply (filter_result img (blur_pixel (width img) (data img))
           (average (width img) (data img))); [done | | done].
  destruct Hwf as (_ & _ & _ & Hlen & Hd).
  intros x y temp Htemp Hint. by apply (blur_pixel_spec _ (height img)).
Qed.

(** ** The Sobel window *)

Lemma load2_Gx dy dx :
  -1 ≤ dy ≤ 1 → -1 ≤ dx ≤ 1 →
  load2 Gx (dy + 1) (dx + 1) = Val (kernel_at Kx dy dx).
Proof.
  intros Hy Hx.
  assert (dy = -1 ∨ dy = 0 ∨ dy = 1) as [-> | [-> | ->]] by lia;
    (assert (dx = -1 ∨ dx = 0 ∨ dx = 1) as [-> | [-> | ->]] by lia); reflexivity.
Qed.

Lemma load2_Gy dy dx :
  -1 ≤ dy ≤ 1 → -1 ≤ dx ≤ 1 →
  load2 Gy (dy + 1) (dx + 1) = Val (kernel_at Ky dy dx).
Proof.
  intros Hy Hx.
  assert (dy = -1 ∨ dy = 0 ∨ dy = 1) as [-> | [-> | ->]] by lia;
    (assert (dx = -1 ∨ dx = 0 ∨ dx = 1) as [-> | [-> | ->]] by lia); reflexivity.
Qed.

Lemma sobel_step_spec w h d x y dy dx sRx sGx sBx sRy sGy sBy :
  length d = Z.to_nat (3 * w * h) →
  -1 ≤ dy ≤ 1 → -1 ≤ dx ≤ 1 →
  0 ≤ x + dx < w → 0 ≤ y + dy < h →
  sobel_step w d y x dy dx (sRx, sGx, sBx, sRy, sGy, sBy) =
  Val (sRx + sample w d (x + dx) (y + dy) 0 * kernel_at Kx dy dx,
       sGx + sample w d (x + dx) (y + dy) 1 * kernel_at Kx dy dx,
       sBx + sample w d (x + dx) (y + dy) 2 * kernel_at Kx dy dx,
       sRy + sample w d (x + dx) (y + dy) 0 * kernel_at Ky dy dx,
       sGy + sample w d (x + dx) (y + dy) 1 * kernel_at Ky dy dx,
       sBy + sample w d (x + dx) (y + dy) 2 * kernel_at Ky dy dx).
Proof.
  intros Hlen Hdy Hdx Hx Hy. unfold sobel_step.
  rewrite load2_Gx, load2_Gy by done. rewrite !bind_val.
  rewrite <- (Z.add_0_r (3 * ((y + dy) * w + (x + dx)))) at 1.
  rewrite !(load_sample w h) by (done || lia).
  reflexivity.
Qed.

Lemma val_sext (a b c a' b' c' e f g e' f' g' : Z) :
  a = a' → b = b' → c = c' → e = e' → f = f' → g = g' →
  @Val (Z * Z * Z * Z * Z * Z) (a, b, c, e, f, g) = Val (a', b', c', e', f', g').
Proof. by intros -> -> -> -> -> ->. Qed.

Lemma sobel_window w h d x y :
  length d = Z.to_nat (3 * w * h) →
  interior w h x y →
  for_le (-1) 1 (λ dy acc,
     for_le (-1) 1 (λ dx acc, sobel_step w d y x dy dx acc) acc)
    (0, 0, 0, 0, 0, 0) =
  Val (convolve Kx w d x y 0, convolve Kx w d x y 1, convolve Kx w d x y 2,
       convolve Ky w d x y 0, convolve Ky w d x y 1, convolve Ky w d x y 2).
Proof.
  intros Hlen [Hx Hy].
  step_window (sobel_step_spec w h).
  cbv [convolve sum_of offsets fmap list_fmap foldr].
  apply val_sext; ring.
Qed.

(** The two gradients in closed form. *)
Lemma convolve_Kx w d x y c :
  convolve Kx w d x y c =
  (sample w d (x + 1) (y + -1) c - sample w d (x + -1) (y + -1) c)
  + 2 * (sample w d (x + 1) (y + 0) c - sample w d (x + -1) (y + 0) c)
  + (sample w d (x + 1) (y + 1) c - sample w d (x + -1) (y + 1) c).
Proof.
  cbv [convolve sum_of offsets fmap list_fmap foldr].
  change (kernel_at Kx (-1) (-1)) with (-1). change (kernel_at Kx (-1) 0) with 0.
  change (kernel_at Kx (-1) 1) with 1. change (kernel_at Kx 0 (-1)) with (-2).
  change (kernel_at Kx 0 0) with 0. change (kernel_at Kx 0 1) with 2.
  change (kernel_at Kx 1 (-1)) with (-1). change (kernel_at Kx 1 0) with 0.
  change (kernel_at Kx 1 1) with 1. ring.
Qed.

Lemma convolve_Ky w d x y c :
  convolve Ky w d x y c =
  (sample w d (x + -1) (y + 1) c - sample w d (x + -1) (y + -1) c)
  + 2 * (sample w d (x + 0) (y + 1) c - sample w d (x + 0) (y + -1) c)
  + (sample w d (x + 1) (y + 1) c - sample w d (x + 1) (y + -1) c).
Proof.
  cbv [convolve sum_of offsets fmap list_fmap foldr].
  change (kernel_at Ky (-1) (-1)) with (-1). change (kernel_at Ky (-1) 0) with (-2).
  change (kernel_at Ky (-1) 1) with (-1). change (kernel_at Ky 0 (-1)) with 0.
  change (kernel_at Ky 0 0) with 0. change (kernel_at Ky 0 1) with 0.
  change (kernel_at Ky 1 (-1)) with 1. change (kernel_at Ky 1 0) with 2.
  change (kernel_at Ky 1 1) with 1. ring.
Qed.

(** Each gradient is at most [4 * 255] in absolute value, so the sum of the
    squares fits an [int] and lies inside the magnitude table. *)
Lemma sobel_sum_bounds w d x y c :
  Forall is_uchar d →
  -1020 ≤ convolve Kx w d x y c ≤ 1020 ∧ -1020 ≤ convolve Ky w d x y c ≤ 1020.
Proof.
  intros Hd. rewrite convolve_Kx, convolve_Ky.
  pose proof (λ dx dy, sample_uchar w d (x + dx) (y + dy) c Hd) as Hs.
  unfold is_uchar in Hs.
  pose proof (Hs (-1) (-1)); pose proof (Hs 0 (-1)); pose proof (Hs 1 (-1)).
  pose proof (Hs (-1) 0); pose proof (Hs 0 0); pose proof (Hs 1 0).
  pose proof (Hs (-1) 1); pose proof (Hs 0 1); pose proof (Hs 1 1).
  lia.
Qed.

Lemma sum_of_squares_bounds gx gy :
  -1020 ≤ gx ≤ 1020 → -1020 ≤ gy ≤ 1020 → 0 ≤ gx * gx + gy * gy ≤ 2080800.
Proof. intros. nia. Qed.

Lemma magnitude_spec gx gy :
  -1020 ≤ gx ≤ 1020 → -1020 ≤ gy ≤ 1020 →
  magnitude gx gy = Val (Z.min 255 (Z.sqrt (gx * gx + gy * gy))).
Proof.
  intros Hx Hy. pose proof (sum_of_squares_bounds gx gy Hx Hy).
  change (magnitude gx gy) with (magnitude_of_sum (gx * gx + gy * gy)).
  rewrite magnitude_of_sum_spec by lia. by rewrite Z.min_comm.
Qed.

Lemma sobel_pixel_spec w h d x y (temp : list Z) :
  length d = Z.to_nat (3 * w * h) → Forall is_uchar d →
  length temp = Z.to_nat (3 * w * h) →
  interior w h x y →
  sobel_pixel w d y x temp =
  Val (write3 temp (3 * (y * w + x))
         (gradient_magnitude w d x y 0) (gradient_magnitude w d x y 1)
         (gradient_magnitude w d x y 2)).
Proof.
  intros Hlen Hd Htemp Hint. unfold sobel_pixel.
  rewrite (sobel_window w h) by done. rewrite bind_val.
  destruct (sobel_sum_bounds w d x y 0 Hd).
  destruct (sobel_sum_bounds w d x y 1 Hd).
  destruct (sobel_sum_bounds w d x y 2 Hd).
  destruct Hint as [Hx Hy].
  pose proof (pixel_index_bound w h x y 0).
  pose proof (pixel_index_bound w h x y 2).
  unfold write3, gradient_magnitude.
  rewrite !magnitude_spec by done. rewrite !bind_val.
  rewrite store_in_bounds by lia. rewrite !bind_val.
  rewrite store_in_bounds by (rewrite ?length_insert; lia). rewrite !bind_val.
  rewrite store_in_bounds by (rewrite ?length_insert; lia).
  reflexivity.
Qed.

Lemma applyEdgeDetection_result sched junk img use_openmp :
  schedule sched → wf_image img →
  ∃ out : Image,
    applyEdgeDetection sched junk img use_openmp = Val out ∧
    width out = width img ∧ height out = height img ∧
    length (data out) = length (data img) ∧
    ∀ x y c, 0 ≤ x < width img → 0 ≤ y < height img → 0 ≤ c < 3 →
      (interior (width img) (height img) x y →
       pixel out x y c = gradient_magnitude (width img) (data img) x y c) ∧
      (¬ interior (width img) (height img) x y →
       pixel out x y c =
       to_uchar (junk (Z.to_nat (3 * (y * width img + x) + c)))).
Proof.
  intros Hsched Hwf. unfold applyEdgeDetection.
  apply (filter_result img (sobel_pixel (width img) (data img))
           (gradient_magnitude (width img) (data img))); [done | | done].
  destruct Hwf as (_ & _ & _ & Hlen & Hd).
  intros x y temp Htemp Hint. by apply (sobel_pixel_spec _ (height img)).
Qed.

(** ** Buffers are determined by their pixels *)

Lemma buffers_equal w h (l1 l2 : list Z) :
  1 ≤ w →
  length l1 = Z.to_nat (3 * w * h) → length l2 = Z.to_nat (3 * w * h) →
  (∀ x y c, 0 ≤ x < w → 0 ≤ y < h → 0 ≤ c < 3 →
     l1 !! Z.to_nat (3 * (y * w + x) + c) = l2 !! Z.to_nat (3 * (y * w + x) + c)) →
  l1 = l2.
Proof.
  intros Hw Hl1 Hl2 Hpix. apply list_eq. intros i.
  destruct (decide (i < Z.to_nat (3 * w * h))%nat) as [Hi|Hi].
  - set (j := Z.of_nat i).
    assert (0 ≤ j < 3 * w * h) as Hj by lia.
    assert (0 ≤ j / 3 < w * h) as Hp.
    { split; [apply Z.div_pos; lia | apply Z.div_lt_upper_bound; lia]. }
    pose proof (Z.div_mod j 3 ltac:(lia)) as Ej.
    pose proof (Z.mod_pos_bound j 3 ltac:(lia)) as Hc.
    pose proof (Z.div_mod (j / 3) w ltac:(lia)) as Ep.
    pose proof (Z.mod_pos_bound (j / 3) w ltac:(lia)) as Hx.
    assert (0 ≤ j / 3 / w < h) as Hy.
    { split; [apply Z.div_pos; lia | apply Z.div_lt_upper_bound; lia]. }
    specialize (Hpix ((j / 3) mod w) (j / 3 / w) (j mod 3) Hx Hy Hc).
    replace (Z.to_nat (3 * (j / 3 / w * w + (j / 3) mod w) + j mod 3)) with i
      in Hpix by lia.
    exact Hpix.
  - rewrite !lookup_ge_None_2 by lia. done.
Qed.

(** With the same scratch block, every schedule gives the buffer of the
    sequential run. *)
Lemma filter_schedule_independent w h body val sched (temp : list Z) :
  1 ≤ w → 1 ≤ h → in_int (h - 1) = true →
  (∀ x y (t : list Z), length t = Z.to_nat (3 * w * h) → interior w h x y →
     body y x t = Val (write3 t (3 * (y * w + x)) (val x y 0) (val x y 1) (val x y 2))) →
  schedule sched →
  length temp = Z.to_nat (3 * w * h) →
  loop_nest sched true w h body temp = loop_nest sched false w h body temp.
Proof.
  intros Hw Hh Hfits Hbody Hsched Hlen.
  destruct (loop_nest_lookup w h body val Hfits Hbody sched true temp)
    as (t1 & -> & Hl1 & Hp1); [done..|].
  destruct (loop_nest_lookup w h body val Hfits Hbody sched false temp)
    as (t2 & -> & Hl2 & Hp2); [done..|].
  f_equal. apply (buffers_equal w h); [done..|].
  intros x y c Hx Hy Hc.
  destruct (Hp1 x y c Hx Hy Hc) as [Hi1 Ho1].
  destruct (Hp2 x y c Hx Hy Hc) as [Hi2 Ho2].
  assert (interior w h x y ∨ ¬ interior w h x y) as [Hi|Hi].
  { unfold interior. lia. }
  - by rewrite Hi1, Hi2.
  - by rewrite Ho1, Ho2.
Qed.

Lemma applyBlur_schedule_independent sched junk img :
  schedule sched → wf_image img →
  applyBlur sched junk img true = applyBlur sched junk img false.
Proof.
  intros Hsched Hwf. pose proof Hwf as (Hw & Hh & Hmax & Hlen & Hd).
  unfold applyBlur. rewrite alloc_pixels_wf by done. rewrite !bind_val.
  rewrite (filter_schedule_independent _ _ _ (average (width img) (data img)));
    [done | done | done | | | done | by rewrite malloc_length].
  - apply in_int_spec. unfold INT_MIN, INT_MAX in *. nia.
  - intros x y t Ht Hi. by apply (blur_pixel_spec _ (height img)).
Qed.

Lemma applyEdgeDetection_schedule_independent sched junk img :
  schedule sched → wf_image img →
  applyEdgeDetection sched junk img true = applyEdgeDetection sched junk img false.
Proof.
  intros Hsched Hwf. pose proof Hwf as (Hw & Hh & Hmax & Hlen & Hd).
  unfold applyEdgeDetection. rewrite alloc_pixels_wf by done. rewrite !bind_val.
  rewrite (filter_schedule_independent _ _ _
             (gradient_magnitude (width img) (data img)));
    [done | done | done | | | done | by rewrite malloc_length].
  - apply in_int_spec. unfold INT_MIN, INT_MAX in *. nia.
  - intros x y t Ht Hi. by apply (sobel_pixel_spec _ (height img)).
Qed.

(** The border of the output is the scratch block, whatever the input. *)
Lemma border_not_interior w h x y : border w h x y → ¬ interior w h x y.
Proof. unfold border, interior. lia. Qed.

Lemma applyBlur_border_is_scratch sched junk img use_openmp x y c :
  schedule sched → wf_image img →
  border (width img) (height img) x y → 0 ≤ c < 3 →
  ∃ out : Image,
    applyBlur sched junk img use_openmp = Val out ∧
    pixel out x y c = to_uchar (junk (Z.to_nat (3 * (y * width img + x) + c))).
Proof.
  intros Hsched Hwf Hb Hc.
  destruct (applyBlur_result sched junk img use_openmp Hsched Hwf)
    as (out & Hrun & _ & _ & _ & Hpix).
  exists out. split; [done|].
  apply Hpix; [unfold border in Hb; lia.. | by apply border_not_interior].
Qed.

Lemma applyEdgeDetection_border_is_scratch sched junk img use_openmp x y c :
  schedule sched → wf_image img →
  border (width img) (height img) x y → 0 ≤ c < 3 →
  ∃ out : Image,
    applyEdgeDetection sched junk img use_openmp = Val out ∧
    pixel out x y c = to_uchar (junk (Z.to_nat (3 * (y * width img + x) + c))).
Proof.
  intros Hsched Hwf Hb Hc.
  destruct (applyEdgeDetection_result sched junk img use_openmp Hsched Hwf)
    as (out & Hrun & _ & _ & _ & Hpix).
  exists out. split; [done|].
  apply Hpix; [unfold border in Hb; lia.. | by apply border_not_interior].
Qed.

(** Interior pixels depend neither on the scratch block nor on the schedule. *)
Lemma applyBlur_interior_agrees sched1 sched2 junk1 junk2 img mode1 mode2 x y c :
  schedule sched1 → schedule sched2 → wf_image img →
  interior (width img) (height img) x y → 0 ≤ c < 3 →
  ∃ out1 out2 : Image,
    applyBlur sched1 junk1 img mode1 = Val out1 ∧
    applyBlur sched2 junk2 img mode2 = Val out2 ∧
    pixel out1 x y c = pixel out2 x y c.
Proof.
  intros Hs1 Hs2 Hwf Hint Hc.
  destruct (applyBlur_result sched1 junk1 img mode1 Hs1 Hwf)
    as (out1 & Hrun1 & _ & _ & _ & Hpix1).
  destruct (applyBlur_result sched2 junk2 img mode2 Hs2 Hwf)
    as (out2 & Hrun2 & _ & _ & _ & Hpix2).
  exists out1, out2. split; [done|]. split; [done|].
  pose proof Hint as [Hx Hy].
  destruct (Hpix1 x y c) as [E1 _]; [lia..|].
  destruct (Hpix2 x y c) as [E2 _]; [lia..|].
  by rewrite E1, E2.
Qed.

Lemma applyEdgeDetection_interior_agrees
    sched1 sched2 junk1 junk2 img mode1 mode2 x y c :
  schedule sched1 → schedule sched2 → wf_image img →
  interior (width img) (height img) x y → 0 ≤ c < 3 →
  ∃ out1 out2 : Image,
    applyEdgeDetection sched1 junk1 img mode1 = Val out1 ∧
    applyEdgeDetection sched2 junk2 img mode2 = Val out2 ∧
    pixel out1 x y c = pixel out2 x y c.
Proof.
  intros Hs1 Hs2 Hwf Hint Hc.
  destruct (applyEdgeDetection_result sched1 junk1 img mode1 Hs1 Hwf)
    as (out1 & Hrun1 & _ & _ & _ & Hpix1).
  destruct (applyEdgeDetection_result sched2 junk2 img mode2 Hs2 Hwf)
    as (out2 & Hrun2 & _ & _ & _ & Hpix2).
  exists out1, out2. split; [done|]. split; [done|].
  pose proof Hint as [Hx Hy].
  destruct (Hpix1 x y c) as [E1 _]; [lia..|].
  destruct (Hpix2 x y c) as [E2 _]; [lia..|].
  by rewrite E1, E2.
Qed.

(** ** Constant images *)

Lemma constant_sample img r g b x y c :
  constant_color img r g b →
  0 ≤ x < width img → 0 ≤ y < height img → 0 ≤ c < 3 →
  sample (width img) (data img) x y c = sample (width img) (data img) 0 0 c.
Proof.
  intros Hconst Hx Hy Hc.
  destruct (Hconst x y Hx Hy) as (E0 & E1 & E2).
  destruct (Hconst 0 0) as (F0 & F1 & F2); [lia..|].
  unfold pixel in *.
  assert (c = 0 ∨ c = 1 ∨ c = 2) as [-> | [-> | ->]] by lia; congruence.
Qed.

(** X17: one pass of the blur keeps every interior sample of a
    constant-colour image. *)
Lemma applyBlur_constant_interior sched junk img use_openmp r g b x y c :
  schedule sched → wf_image img → constant_color img r g b →
  interior (width img) (height img) x y → 0 ≤ c < 3 →
  ∃ out : Image,
    applyBlur sched junk img use_openmp = Val out ∧
    pixel out x y c = pixel img x y c.
Proof.
  intros Hsched Hwf Hconst Hint Hc. pose proof Hint as [Hx Hy].
  destruct (applyBlur_result sched junk img use_openmp Hsched Hwf)
    as (out & Hrun & _ & _ & _ & Hpix).
  destruct (Hpix x y c) as [Hin _]; [lia..|].
  exists out. split; [done|].
  rewrite Hin by done. unfold pixel, average.
  cbv [neighborhood_sum sum_of offsets fmap list_fmap foldr].
  rewrite !(constant_sample img r g b (x + _) (y + _) c) by (done || lia).
  rewrite (constant_sample img r g b x y c) by (done || lia).
  set (v := sample (width img) (data img) 0 0 c).
  replace (v + (v + (v + 0)) + (v + (v + (v + 0)) + (v + (v + (v + 0)) + 0)))
    with (v * 9) by ring.
  apply Z.quot_mul. lia.
Qed.

(** ** Images too small to have an interior *)

Lemma iterations_small w h : w < 3 ∨ h < 3 → iterations w h = [].
Proof.
  intros Hs. destruct (iterations w h) as [|[y x] l] eqn:E; [done|].
  assert ((y, x) ∈ iterations w h) as Hin by (rewrite E; left).
  apply elem_of_iterations in Hin. unfold interior in Hin. lia.
Qed.

Lemma loop_nest_small sched use_openmp w h body (temp : list Z) :
  schedule sched → in_int (h - 1) = true → w < 3 ∨ h < 3 →
  loop_nest sched use_openmp w h body temp = Val temp.
Proof.
  intros Hsched Hfits Hs. unfold loop_nest, int_val. rewrite Hfits, bind_val.
  destruct use_openmp.
  - rewrite iterations_small by done.
    pose proof (Hsched []) as Hnil. apply Permutation_nil_r in Hnil.
    by rewrite Hnil.
  - by rewrite for_lt_nest, iterations_small.
Qed.

(** Below 3x3 nothing is read and the result is the scratch block. *)
Lemma applyBlur_small sched junk img use_openmp :
  schedule sched → wf_image img → width img < 3 ∨ height img < 3 →
  applyBlur sched junk img use_openmp =
  Val (mkImage (width img) (height img)
         (malloc junk (3 * width img * height img))).
Proof.
  intros Hsched Hwf Hs. pose proof Hwf as (Hw & Hh & Hmax & Hlen & Hd).
  unfold applyBlur. rewrite alloc_pixels_wf by done. rewrite bind_val.
  rewrite loop_nest_small; [| done | | done].
  - rewrite bind_val, memcpy_whole; [done | nia | done | by rewrite malloc_length].
  - apply in_int_spec. unfold INT_MIN, INT_MAX in *. nia.
Qed.

Lemma applyEdgeDetection_small sched junk img use_openmp :
  schedule sched → wf_image img → width img < 3 ∨ height img < 3 →
  applyEdgeDetection sched junk img use_openmp =
  Val (mkImage (width img) (height img)
         (malloc junk (3 * width img * height img))).
Proof.
  intros Hsched Hwf Hs. pose proof Hwf as (Hw & Hh & Hmax & Hlen & Hd).
  unfold applyEdgeDetection. rewrite alloc_pixels_wf by done. rewrite bind_val.
  rewrite loop_nest_small; [| done | | done].
  - rewrite bind_val, memcpy_whole; [done | nia | done | by rewrite malloc_length].
  - apply in_int_spec. unfold INT_MIN, INT_MAX in *. nia.
Qed.

Ltac prove_wf :=
  unfold wf_image, INT_MAX; simpl; repeat split; try lia;
  repeat constructor; unfold is_uchar; simpl; lia.

(** ** The two filters against their specification *)

(** C1 (border pixels are byte-identical between input and output, both
    policies): the code does not do this.  On the all-white 3x3 image, with
    a scratch block that holds zeros, both filters return an image whose
    border pixel (0, 0) is 0 where the input has 255: the border of the
    output is the uninitialised scratch block, see
    [applyBlur_border_is_scratch]. *)
Theorem border_overwritten_white3 :
  border 3 3 0 0 ∧ pixel white3 0 0 0 = 255 ∧
  (∃ out, applyBlur sequential zeros white3 false = Val out ∧ pixel out 0 0 0 = 0) ∧
  (∃ out, applyEdgeDetection sequential zeros white3 false = Val out ∧
          pixel out 0 0 0 = 0).
Proof.
  split; [unfold border; lia|]. split; [reflexivity|].
  split; eexists; (split; [vm_compute; reflexivity | reflexivity]).
Qed.

(** C2 (for w < 3 or h < 3 nothing is read out of bounds and the output
    equals the input): the run is defined, but the output is the scratch
    block, not the input.  The white 1x1 image comes back black from both
    filters when the scratch block holds zeros. *)
Theorem small_image_overwritten :
  applyBlur sequential zeros dot1 false = Val (mkImage 1 1 [0; 0; 0]) ∧
  applyEdgeDetection sequential zeros dot1 false = Val (mkImage 1 1 [0; 0; 0]) ∧
  mkImage 1 1 [0; 0; 0] ≠ dot1.
Proof. repeat split; try (vm_compute; reflexivity). discriminate. Qed.

(** C3 (Average policy: every channel of an interior pixel is the sum of the
    nine samples of its 3x3 neighbourhood divided by 9, truncated, and lies
    in [0, 255]). *)
Theorem average_interior sched junk img use_openmp x y c :
  schedule sched → wf_image img →
  3 ≤ width img → 3 ≤ height img →
  1 ≤ x ≤ width img - 2 → 1 ≤ y ≤ height img - 2 → 0 ≤ c < 3 →
  ∃ out : Image,
    applyBlur sched junk img use_openmp = Val out ∧
    pixel out x y c = neighborhood_sum (width img) (data img) x y c ÷ 9 ∧
    0 ≤ pixel out x y c ≤ 255.
Proof.
  intros Hsched Hwf _ _ Hx Hy Hc.
  destruct (applyBlur_result sched junk img use_openmp Hsched Hwf)
    as (out & Hrun & _ & _ & _ & Hpix).
  destruct (Hpix x y c) as [Hin _]; [lia..|].
  exists out. split; [done|].
  rewrite Hin by done. split; [done|].
  apply average_uchar. apply Hwf.
Qed.

Lemma average_interior_witness :
  ∃ out : Image,
    applyBlur sequential zeros ramp3 false = Val out ∧
    pixel out 1 1 0 = neighborhood_sum (width ramp3) (data ramp3) 1 1 0 ÷ 9 ∧
    0 ≤ pixel out 1 1 0 ≤ 255.
Proof.
  apply (average_interior sequential zeros ramp3 false 1 1 0).
  - intros its. reflexivity.
  - prove_wf.
  - simpl; lia.
  - simpl; lia.
  - simpl; lia.
  - simpl; lia.
  - lia.
Defined.

(** C4 (Sobel policy: every channel of an interior pixel is
    min(255, trunc(sqrt(Gx^2 + Gy^2))), Gx and Gy being the convolutions of
    the neighbourhood with Kx and Ky; the square root is truncated). *)
Theorem sobel_interior sched junk img use_openmp x y c :
  schedule sched → wf_image img →
  3 ≤ width img → 3 ≤ height img →
  1 ≤ x ≤ width img - 2 → 1 ≤ y ≤ height img - 2 → 0 ≤ c < 3 →
  ∃ out : Image,
    applyEdgeDetection sched junk img use_openmp = Val out ∧
    pixel out x y c =
    Z.min 255
      (Z.sqrt (convolve Kx (width img) (data img) x y c
               * convolve Kx (width img) (data img) x y c
               + convolve Ky (width img) (data img) x y c
                 * convolve Ky (width img) (data img) x y c)).
Proof.
  intros Hsched Hwf _ _ Hx Hy Hc.
  destruct (applyEdgeDetection_result sched junk img use_openmp Hsched Hwf)
    as (out & Hrun & _ & _ & _ & Hpix).
  destruct (Hpix x y c) as [Hin _]; [lia..|].
  exists out. split; [done|]. by rewrite Hin.
Qed.

Lemma sobel_interior_witness :
  ∃ out : Image,
    applyEdgeDetection sequential zeros ramp3 false = Val out ∧
    pixel out 1 1 0 =
    Z.min 255
      (Z.sqrt (convolve Kx (width ramp3) (data ramp3) 1 1 0
               * convolve Kx (width ramp3) (data ramp3) 1 1 0
               + convolve Ky (width ramp3) (data ramp3) 1 1 0
                 * convolve Ky (width ramp3) (data ramp3) 1 1 0)).
Proof.
  apply (sobel_interior sequential zeros ramp3 false 1 1 0).
  - intros its. reflexivity.
  - prove_wf.
  - simpl; lia.
  - simpl; lia.
  - simpl; lia.
  - simpl; lia.
  - lia.
Defined.

(** C5 (Sobel policy: the value of every channel of an interior pixel is at
    most 255; a magnitude above 255 is stored as 255, it does not wrap
    modulo 256). *)
Theorem sobel_clamped sched junk img use_openmp x y c :
  schedule sched → wf_image img →
  1 ≤ x ≤ width img - 2 → 1 ≤ y ≤ height img - 2 → 0 ≤ c < 3 →
  ∃ out : Image,
    applyEdgeDetection sched junk img use_openmp = Val out ∧
    pixel out x y c ≤ 255 ∧
    (255 ≤ Z.sqrt (convolve Kx (width img) (data img) x y c
                   * convolve Kx (width img) (data img) x y c
                   + convolve Ky (width img) (data img) x y c
                     * convolve Ky (width img) (data img) x y c) →
     pixel out x y c = 255).
Proof.
  intros Hsched Hwf Hx Hy Hc.
  destruct (applyEdgeDetection_result sched junk img use_openmp Hsched Hwf)
    as (out & Hrun & _ & _ & _ & Hpix).
  destruct (Hpix x y c) as [Hin _]; [lia..|].
  exists out. split; [done|].
  rewrite Hin by done. unfold gradient_magnitude. lia.
Qed.

Lemma sobel_clamped_witness :
  ∃ out : Image,
    applyEdgeDetection sequential zeros step3 false = Val out ∧
    pixel out 1 1 0 ≤ 255 ∧
    (255 ≤ Z.sqrt (convolve Kx (width step3) (data step3) 1 1 0
                   * convolve Kx (width step3) (data step3) 1 1 0
                   + convolve Ky (width step3) (data step3) 1 1 0
                     * convolve Ky (width step3) (data step3) 1 1 0) →
     pixel out 1 1 0 = 255).
Proof.
  apply (sobel_clamped sequential zeros step3 false 1 1 0).
  - intros its. reflexivity.
  - prove_wf.
  - simpl; lia.
  - simpl; lia.
  - lia.
Defined.

(** On the black-to-white step the horizontal gradient is 1020: the centre
    pixel is stored as 255, not as 1020 mod 256 = 252. *)
Example sobel_step3_centre :
  convolve Kx 3 (data step3) 1 1 0 = 1020 ∧
  convolve Ky 3 (data step3) 1 1 0 = 0 ∧
  ∃ out : Image,
    applyEdgeDetection sequential zeros step3 false = Val out ∧
    pixel out 1 1 0 = 255.
Proof.
  split; [reflexivity|]. split; [reflexivity|].
  eexists. split; [vm_compute; reflexivity | reflexivity].
Qed.

(** C6 (a sequential and a parallel run on the same input give byte-identical
    buffers): not on this code.  Each run copies its own uninitialised
    scratch block into the border, so the two results agree only when the
    two blocks happen to hold the same bytes.  On the all-white 3x3 image the
    sequential run with a zero-filled block and the parallel run with a
    block of sevens differ.  With equal scratch blocks every schedule gives
    the sequential result, see [applyBlur_schedule_independent] and
    [applyEdgeDetection_schedule_independent]. *)
Theorem parallel_run_differs :
  applyBlur sequential zeros white3 false ≠ applyBlur sequential sevens white3 true ∧
  applyEdgeDetection sequential zeros white3 false
  ≠ applyEdgeDetection sequential sevens white3 true.
Proof. split; vm_compute; discriminate. Qed.

(** C7 (the Average policy applied twice to a constant-colour image gives
    the same buffer as applied once, the unchanged image): not on this code.
    On the all-white 3x3 image with zero-filled scratch blocks, one pass
    blackens the border, and the second pass averages that border into the
    centre. *)
Theorem blur_twice_white3 :
  ∃ once twice : Image,
    applyBlur sequential zeros white3 false = Val once ∧
    applyBlur sequential zeros once false = Val twice ∧
    once ≠ white3 ∧ twice ≠ once ∧
    pixel once 1 1 0 = 255 ∧ pixel twice 1 1 0 = 28.
Proof.
  eexists. eexists.
  split; [vm_compute; reflexivity|].
  split; [vm_compute; reflexivity|].
  split; [discriminate|]. split; [discriminate|].
  split; reflexivity.
Qed.

Lemma sample_lookup w h (d : list Z) x y c :
  length d = Z.to_nat (3 * w * h) →
  0 ≤ x < w → 0 ≤ y < h → 0 ≤ c < 3 →
  d !! Z.to_nat (3 * (y * w + x) + c) = Some (sample w d x y c).
Proof.
  intros Hlen Hx Hy Hc. unfold sample.
  destruct (d !! Z.to_nat (3 * (y * w + x) + c)) as [v|] eqn:E; [done|].
  apply lookup_ge_None in E. pose proof (pixel_index_bound w h x y c Hx Hy Hc). lia.
Qed.

(** C8 (Sobel policy on a constant-colour image of at least 3x3: every
    channel of every interior pixel is 0).  The output has the width, the
    height and the number of samples of the input, and the byte stored at
    the place of the channel is 0. *)
Theorem sobel_constant_zero sched junk img use_openmp r g b x y c :
  schedule sched → wf_image img →
  3 ≤ width img → 3 ≤ height img →
  constant_color img r g b →
  1 ≤ x ≤ width img - 2 → 1 ≤ y ≤ height img - 2 → 0 ≤ c < 3 →
  ∃ out : Image,
    applyEdgeDetection sched junk img use_openmp = Val out ∧
    width out = width img ∧ height out = height img ∧
    length (data out) = Z.to_nat (3 * width img * height img) ∧
    data out !! Z.to_nat (3 * (y * width img + x) + c) = Some 0 ∧
    pixel out x y c = 0.
Proof.
  intros Hsched Hwf _ _ Hconst Hx Hy Hc.
  destruct (applyEdgeDetection_result sched junk img use_openmp Hsched Hwf)
    as (out & Hrun & Hw & Hh & Hlen & Hpix).
  destruct (Hpix x y c) as [Hin _]; [lia..|].
  pose proof Hwf as (_ & _ & _ & Hl & _).
  assert (pixel out x y c = 0) as Hzero.
  { rewrite Hin by done. unfold gradient_magnitude.
    rewrite convolve_Kx, convolve_Ky.
    rewrite !(constant_sample img r g b (x + _) (y + _) c) by (done || lia).
    replace (_ * _ + _ * _) with 0 by ring. reflexivity. }
  exists out. split; [done|]. split; [done|]. split; [done|].
  split; [congruence|]. split; [|done].
  rewrite (sample_lookup (width img) (height img)); [| congruence | lia..].
  unfold pixel in Hzero. rewrite Hw in Hzero. by rewrite Hzero.
Qed.

Lemma sobel_constant_zero_witness :
  ∃ out : Image,
    applyEdgeDetection sequential sevens white3 false = Val out ∧
    width out = width white3 ∧ height out = height white3 ∧
    length (data out) = Z.to_nat (3 * width white3 * height white3) ∧
    data out !! Z.to_nat (3 * (1 * width white3 + 1) + 0) = Some 0 ∧
    pixel out 1 1 0 = 0.
Proof.
  apply (sobel_constant_zero sequential sevens white3 false 255 255 255 1 1 0).
  - intros its. reflexivity.
  - prove_wf.
  - simpl; lia.
  - simpl; lia.
  - intros x y Hx Hy. simpl in Hx, Hy.
    assert (x = 0 ∨ x = 1 ∨ x = 2) as [-> | [-> | ->]] by lia;
      (assert (y = 0 ∨ y = 1 ∨ y = 2) as [-> | [-> | ->]] by lia);
      vm_compute; repeat split; reflexivity.
  - simpl; lia.
  - simpl; lia.
  - lia.
Defined.

(** ** Decoding and encoding *)

Lemma fread3_length (block : list Z) count (s : list Z) :
  0 ≤ count → length block = Z.to_nat (3 * count) →
  length (fread3 block count s) = length block.
Proof.
  intros Hc Hb. unfold fread3.
  rewrite length_app, length_take, length_drop. lia.
Qed.

(** An image that [readPPM] returns has the shape its header announces. *)
Lemma readPPM_shape init junk filename fs img :
  readPPM init junk filename fs = Val img →
  in_int (width img * height img) = true ∧
  0 ≤ width img * height img ∧
  length (data img) = Z.to_nat (3 * (width img * height img)).
Proof.
  unfold readPPM. destruct (files fs !! filename) as [content|]; [|done].
  destruct (scan_header init content) as [[hd rest]| |]; [|done..].
  rewrite bind_val. destruct (unsupported hd) as [[|]| |]; [done| |done..].
  rewrite bind_val. unfold alloc_pixels, int_val.
  destruct (in_int (3 * hd_w hd)); [|done]. rewrite bind_val.
  destruct (in_int (3 * hd_w hd * hd_h hd)); [|done]. rewrite bind_val.
  destruct (Z.ltb_spec (3 * hd_w hd * hd_h hd) 0) as [|Hpos]; [done|].
  rewrite bind_val.
  destruct (in_int (hd_w hd * hd_h hd)) eqn:Hfit; [|done]. rewrite bind_val.
  intros [= <-]. simpl. split; [done|]. split; [lia|].
  rewrite fread3_length; [| lia |]; rewrite malloc_length; f_equal; lia.
Qed.

Lemma writePPM_content filename img fs :
  writable fs filename = true →
  in_int (width img * height img) = true →
  0 ≤ width img * height img →
  length (data img) = Z.to_nat (3 * (width img * height img)) →
  ∃ fs', writePPM filename img fs = Val fs' ∧
    files fs' !! filename =
    Some (ppm_header (width img) (height img) ++ data img).
Proof.
  intros Hw Hfit Hpos Hlen. unfold writePPM, int_val. rewrite Hw, Hfit, bind_val.
  destruct (Z.ltb_spec (width img * height img) 0); [lia|].
  destruct (Z.ltb_spec (Z.of_nat (length (data img))) (3 * (width img * height img)));
    [lia|].
  eexists. split; [reflexivity|]. simpl.
  rewrite lookup_insert_eq. rewrite <- Hlen, firstn_all. reflexivity.
Qed.

(** ** The program against its specification *)

(** A header that [fscanf] takes in without overflow and that names another
    format or another maximum ends the process with status 1, all files as
    they were. *)
Lemma rejected_header_exits rt prog input output filter fs content hd rest magic :
  files fs !! input = Some content →
  scan_header (locals1 rt) content = Val (hd, rest) →
  cstring (format hd) = Some magic →
  magic ≠ bytes_of "P6" ∨ maxColor hd ≠ MAX_COLOR →
  main rt [prog; input; output; filter] fs = Terminated 1 fs.
Proof.
  intros Hfile Hscan Hstr Hbad. unfold main, readPPM.
  rewrite Hfile, Hscan, bind_val. unfold unsupported. rewrite Hstr, bind_val.
  destruct Hbad as [Hm|Hc].
  - rewrite bool_decide_false by done. reflexivity.
  - destruct (Z.eqb_spec (maxColor hd) MAX_COLOR); [done|].
    by rewrite orb_true_r.
Qed.

(** Two files that are turned away: the magic word P5, and the maximum
    65535.  The process ends with status 1 and the disk is as it was. *)
Example rejects_P5 :
  main rt0 ["prog"; "in.ppm"; "out.ppm"; "1"]%string (disk (ppm_1x1 "P5" "255"))
  = Terminated 1 (disk (ppm_1x1 "P5" "255")).
Proof. reflexivity. Qed.

Example rejects_maxval_65535 :
  main rt0 ["prog"; "in.ppm"; "out.ppm"; "1"]%string (disk (ppm_1x1 "P6" "65535"))
  = Terminated 1 (disk (ppm_1x1 "P6" "65535")).
Proof. reflexivity. Qed.

(** The word PPM and its NUL do not fit [char format[3]]: the decoding leaves
    defined behaviour inside [fscanf]. *)
Example long_magic_word_overflows rt :
  (∀ init, scan_header init (ppm_1x1 "PPM" "255") = Undefined) ∧
  main rt ["prog"; "in.ppm"; "out.ppm"; "1"]%string (disk (ppm_1x1 "PPM" "255"))
  = Crashed.
Proof.
  split.
  - intros init. reflexivity.
  - unfold main, readPPM, disk. cbn [files].
    rewrite lookup_singleton_eq. reflexivity.
Qed.






Lemma apply_filter_other sched junk t img use_openmp :
  t ≠ 1 → t ≠ 2 → apply_filter sched junk t img use_openmp = Val img.
Proof.
  intros H1 H2. unfold apply_filter.
  destruct (Z.eqb_spec t 1); [done|]. destruct (Z.eqb_spec t 2); [done|]. done.
Qed.

(** C10 (a filter_type other than 1 and 2: no filter is applied, and the
    buffer written to the output file is the decoded input buffer; the run
    ends with status 0). *)
Theorem unknown_filter_is_noop rt prog input output filter fs t img1 img2 :
  atoi filter = Val t → t ≠ 1 → t ≠ 2 →
  readPPM (locals1 rt) (read_block1 rt) input fs = Val img1 →
  readPPM (locals2 rt) (read_block2 rt) input fs = Val img2 →
  writable fs output = true →
  ∃ fs',
    main rt [prog; input; output; filter] fs = Terminated 0 fs' ∧
    files fs' !! output =
    Some (ppm_header (width img2) (height img2) ++ data img2).
Proof.
  intros Hatoi H1 H2 Hr1 Hr2 Hw.
  destruct (readPPM_shape _ _ _ _ _ Hr2) as (Hfit & Hpos & Hlen).
  destruct (writePPM_content output img2 fs Hw Hfit Hpos Hlen) as (fs' & Hwr & Hout).
  exists fs'. split; [|done].
  unfold main. rewrite Hr1, Hatoi. cbn [finish].
  rewrite apply_filter_other by done. cbn [finish].
  rewrite Hr2. cbn [finish].
  rewrite apply_filter_other by done. cbn [finish].
  by rewrite Hwr.
Qed.

Lemma unknown_filter_is_noop_witness :
  ∃ fs',
    main rt0 ["prog"; "in.ppm"; "out.ppm"; "3"]%string (disk (ppm_1x1 "P6" "255"))
    = Terminated 0 fs' ∧
    files fs' !! "out.ppm"%string =
    Some (ppm_header 1 1 ++ [200; 100; 50]).
Proof.
  apply (unknown_filter_is_noop rt0 "prog" "in.ppm" "out.ppm" "3"
           (disk (ppm_1x1 "P6" "255")) 3
           (mkImage 1 1 [200; 100; 50]) (mkImage 1 1 [200; 100; 50])).
  - reflexivity.
  - lia.
  - lia.
  - vm_compute. reflexivity.
  - vm_compute. reflexivity.
  - reflexivity.
Defined.

(** * Further properties *)

(** ** Decimal numbers: [%d] written and read back *)

Lemma uint_bytes_digits d : Forall (λ c, isdigit c = true) (uint_bytes d).
Proof. induction d; constructor; (reflexivity || assumption). Qed.

Lemma decimal_acc_pos d : ∀ p,
  foldl (λ acc c, 10 * acc + (c - 48)) (Z.pos p) (uint_bytes d)
  = Z.pos (Pos.of_uint_acc d p).
Proof.
  induction d as [|d IH|d IH|d IH|d IH|d IH|d IH|d IH|d IH|d IH|d IH]; intros p;
    [reflexivity|..];
    unfold uint_bytes, bytes_of in *;
    cbn [DecimalString.NilEmpty.string_of_uint list_ascii_of_string fmap list_fmap
         foldl Pos.of_uint_acc];
    rewrite <- IH; f_equal; vm_compute (Z.of_N (N_of_ascii _)); lia.
Qed.

Lemma decimal_uint_bytes d : decimal (uint_bytes d) = Z.of_N (Pos.of_uint d).
Proof.
  unfold decimal.
  induction d as [|d IH|d IH|d IH|d IH|d IH|d IH|d IH|d IH|d IH|d IH];
    [reflexivity | exact IH |..];
    apply (decimal_acc_pos d).
Qed.

Lemma scan_digits_app (ds rest : list Z) :
  Forall (λ c, isdigit c = true) ds →
  starts_with isdigit rest = false →
  scan_digits (ds ++ rest) = (ds, rest).
Proof.
  intros Hds Hrest. induction Hds as [|c ds Hc _ IH]; simpl.
  - destruct rest as [|c rest]; [done|]. simpl in *. by rewrite Hrest.
  - by rewrite Hc, IH.
Qed.

Lemma skip_space_id (s : list Z) : starts_with isspace s = false → skip_space s = s.
Proof. destruct s as [|c s]; [done|]. simpl. by intros ->. Qed.

Lemma nilzero_bytes d :
  d ≠ Decimal.Nil →
  bytes_of (DecimalString.NilZero.string_of_uint d) = uint_bytes d ∧
  uint_bytes d ≠ [].
Proof. destruct d; done. Qed.

(** What [%d] prints: an optional minus sign and at least one digit. *)
Lemma print_int_shape v :
  ∃ ds : list Z,
    print_int v = (if v <? 0 then [45] else []) ++ ds ∧
    ds ≠ [] ∧ Forall (λ c, isdigit c = true) ds ∧ decimal ds = Z.abs v.
Proof.
  assert (∀ p, ∃ ds : list Z,
    bytes_of (DecimalString.NilZero.string_of_uint (Pos.to_uint p)) = ds ∧
    ds ≠ [] ∧ Forall (λ c, isdigit c = true) ds ∧ decimal ds = Z.pos p) as Hpos.
  { intros p. eexists. split; [reflexivity|].
    destruct (nilzero_bytes (Pos.to_uint p)) as [-> Hne].
    { apply DecimalPos.Unsigned.to_uint_nonnil. }
    split; [done|]. split; [apply uint_bytes_digits|].
    by rewrite decimal_uint_bytes, DecimalPos.Unsigned.of_to. }
  unfold print_int. destruct v as [|p|p].
  - exists [48]. repeat split; try done. by repeat constructor.
  - destruct (Hpos p) as (ds & E & Hne & Hd & Hv). exists ds.
    split; [exact E|]. done.
  - destruct (Hpos p) as (ds & E & Hne & Hd & Hv). exists ds.
    split; [|done]. simpl. unfold bytes_of in *. simpl. by rewrite <- E.
Qed.

(** [%d] reads back what [%d] printed, up to the first character that is not
    a digit. *)
Lemma scan_int_print_int v rest :
  in_int v = true →
  starts_with isdigit rest = false →
  scan_int (print_int v ++ rest) = Matched v rest.
Proof.
  intros Hv Hrest.
  destruct (print_int_shape v) as (ds & -> & Hne & Hds & Hdec).
  destruct ds as [|c ds]; [done|]. clear Hne.
  pose proof (Forall_inv Hds) as Hc.
  assert (isspace c = false ∧ c ≠ 45 ∧ c ≠ 43) as (Hsp & H45 & H43).
  { unfold isdigit, isspace in *. lia. }
  unfold scan_int. destruct (Z.ltb_spec v 0) as [Hneg|Hpos].
  - change (skip_space (([45] ++ c :: ds) ++ rest)) with (45 :: (c :: ds) ++ rest).
    cbn iota. rewrite scan_digits_app by done.
    rewrite Hdec. replace (- Z.abs v) with v by lia. by rewrite Hv.
  - change (([] ++ c :: ds) ++ rest) with (c :: ds ++ rest).
    cbn [skip_space]. rewrite Hsp.
    assert (∀ (A : Type) (a b : list Z → A) (d : A),
      match c :: ds ++ rest with 45 :: s' => a s' | 43 :: s' => b s' | _ => d end = d)
      as Hm.
    { intros A a b d. destruct c as [|p|p]; try done.
      repeat (destruct p as [p|p|]; try done). }
    rewrite Hm. change (c :: ds ++ rest) with ((c :: ds) ++ rest).
    rewrite scan_digits_app by done.
    rewrite Hdec. replace (Z.abs v) with v by lia. by rewrite Hv.
Qed.

Lemma skip_space_idem (s : list Z) : skip_space (skip_space s) = skip_space s.
Proof.
  induction s as [|c s IH]; [done|]. simpl.
  destruct (isspace c) eqn:E; [done|]. simpl. by rewrite E.
Qed.

Lemma scan_int_skip (s : list Z) : scan_int (skip_space s) = scan_int s.
Proof. unfold scan_int. by rewrite skip_space_idem. Qed.

Lemma scan_int_space c (s : list Z) :
  isspace c = true → scan_int (c :: s) = scan_int s.
Proof. intros Hc. unfold scan_int. simpl. by rewrite Hc. Qed.

(** ** The header, written and read back *)

Lemma scan_header_ppm_header init w h (raster : list Z) :
  in_int w = true → in_int h = true →
  scan_header init (ppm_header w h ++ raster) =
  Val (mkHeader ([80; 54; 0] ++ drop 3 (format init)) w h MAX_COLOR,
       skip_space raster).
Proof.
  intros Hw Hh. unfold scan_header, ppm_header.
  change (bytes_of "P6") with [80; 54].
  rewrite <- !app_assoc.
  change (scan_word (skip_space ([80; 54] ++ [10] ++ ?s)))
    with ([80; 54], 10 :: s).
  cbn iota. cbn [length Nat.add Nat.ltb Nat.leb app].
  rewrite scan_int_skip, scan_int_space by done.
  rewrite scan_int_print_int by done.
  rewrite scan_int_skip, scan_int_space by done.
  rewrite scan_int_print_int by done.
  rewrite scan_int_skip, scan_int_space by done.
  rewrite scan_int_print_int by done.
  reflexivity.
Qed.

(** Decoding a file that starts with a written header: the raster is read
    after the white space that follows the header. *)
Lemma readPPM_ppm_header init junk name fs w h (raster : list Z) :
  files fs !! name = Some (ppm_header w h ++ raster) →
  in_int w = true → in_int h = true →
  readPPM init junk name fs =
  (block ← alloc_pixels junk w h;
   count ← int_val (w * h);
   Val (mkImage w h (fread3 block count (skip_space raster)))).
Proof.
  intros Hfile Hw Hh. unfold readPPM. rewrite Hfile.
  rewrite scan_header_ppm_header by done. rewrite bind_val.
  reflexivity.
Qed.

Lemma wf_image_ints img :
  wf_image img →
  in_int (width img) = true ∧ in_int (height img) = true ∧
  in_int (width img * height img) = true ∧ 0 ≤ width img * height img.
Proof.
  intros (Hw & Hh & Hmax & _). unfold INT_MAX in *.
  rewrite !in_int_spec. unfold INT_MIN, INT_MAX. nia.
Qed.

Lemma readPPM_wf_header init junk name fs img (raster : list Z) :
  wf_image img →
  files fs !! name = Some (ppm_header (width img) (height img) ++ raster) →
  readPPM init junk name fs =
  Val (mkImage (width img) (height img)
         (fread3 (malloc junk (3 * width img * height img))
                 (width img * height img) (skip_space raster))).
Proof.
  intros Hwf Hfile.
  destruct (wf_image_ints img Hwf) as (Hw & Hh & Hwh & Hpos).
  rewrite (readPPM_ppm_header _ _ _ _ _ _ _ Hfile) by done.
  rewrite alloc_pixels_wf by done. rewrite bind_val.
  unfold int_val. by rewrite Hwh.
Qed.

Lemma fread3_whole (block : list Z) count (s : list Z) :
  0 ≤ count → length block = Z.to_nat (3 * count) → length s = Z.to_nat (3 * count) →
  fread3 block count s = s.
Proof.
  intros Hc Hb Hs. unfold fread3.
  replace (Z.to_nat (Z.min (3 * count) (Z.of_nat (length s)))) with (length s)
    by lia.
  rewrite firstn_all. rewrite Hs, <- Hb, drop_all. apply app_nil_r.
Qed.

(** X1: an image written by [writePPM] is read back unchanged by [readPPM],
    provided its first sample is not a white-space character. *)
Theorem write_then_read init junk name img fs :
  wf_image img →
  writable fs name = true →
  starts_with isspace (data img) = false →
  ∃ fs', writePPM name img fs = Val fs' ∧ readPPM init junk name fs' = Val img.
Proof.
  intros Hwf Hw Hfirst.
  destruct (wf_image_ints img Hwf) as (_ & _ & Hwh & Hpos).
  pose proof Hwf as (_ & _ & _ & Hlen & _).
  destruct (writePPM_content name img fs Hw Hwh Hpos) as (fs' & Hwr & Hfile).
  { rewrite Hlen. f_equal. lia. }
  exists fs'. split; [done|].
  rewrite (readPPM_wf_header _ _ _ _ img (data img)) by done.
  rewrite skip_space_id by done.
  rewrite fread3_whole; [by destruct img | lia | |].
  - rewrite malloc_length. f_equal. lia.
  - rewrite Hlen. f_equal. lia.
Qed.

Lemma write_then_read_witness :
  ∃ fs', writePPM "in.ppm" (mkImage 1 1 [200; 100; 50]) (disk []) = Val fs' ∧
         readPPM zero_locals zeros "in.ppm" fs' = Val (mkImage 1 1 [200; 100; 50]).
Proof.
  apply (write_then_read zero_locals zeros "in.ppm" (mkImage 1 1 [200; 100; 50]) (disk [])).
  - prove_wf.
  - reflexivity.
  - reflexivity.
Defined.

Lemma skip_space_length (s : list Z) : (length (skip_space s) ≤ length s)%nat.
Proof.
  induction s as [|c s IH]; [done|]. simpl.
  destruct (isspace c); simpl; lia.
Qed.

Lemma skip_space_shorter (s : list Z) :
  starts_with isspace s = true → (length (skip_space s) < length s)%nat.
Proof.
  destruct s as [|c s]; [done|]. simpl. intros ->.
  pose proof (skip_space_length s). lia.
Qed.

(** A file that holds fewer bytes than are asked for: they are all stored,
    and the rest of the block is as [malloc] returned it. *)
Lemma fread3_short (block : list Z) count (s : list Z) :
  (length s ≤ Z.to_nat (3 * count))%nat →
  fread3 block count s = s ++ drop (length s) block.
Proof.
  intros Hs. unfold fread3.
  replace (Z.to_nat (Z.min (3 * count) (Z.of_nat (length s)))) with (length s)
    by lia.
  by rewrite firstn_all.
Qed.

Lemma malloc_drop_lookup junk n (k i : nat) :
  (k ≤ i < Z.to_nat n)%nat →
  (drop k (malloc junk n)) !! (i - k)%nat = Some (to_uchar (junk i)).
Proof.
  intros Hi. rewrite lookup_drop, malloc_lookup by lia.
  do 3 f_equal. lia.
Qed.

(** X2: when the first sample of the raster is a white-space character,
    [fscanf] takes it, and the white-space samples that follow it, for part
    of the header: the image read back is the rest of the raster moved to
    the front, followed by what the [malloc] block held; its last sample is
    uninitialised memory. *)
Theorem leading_space_sample_lost init junk name img fs :
  wf_image img →
  writable fs name = true →
  starts_with isspace (data img) = true →
  ∃ fs' out,
    writePPM name img fs = Val fs' ∧
    readPPM init junk name fs' = Val out ∧
    width out = width img ∧ height out = height img ∧
    (length (skip_space (data img)) < length (data img))%nat ∧
    data out =
      skip_space (data img)
      ++ drop (length (skip_space (data img)))
           (malloc junk (3 * width img * height img)) ∧
    data out !! (length (data img) - 1)%nat
    = Some (to_uchar (junk (length (data img) - 1)%nat)).
Proof.
  intros Hwf Hw Hfirst.
  destruct (wf_image_ints img Hwf) as (_ & _ & Hwh & Hpos).
  pose proof Hwf as (Hw1 & Hh1 & _ & Hlen & _).
  destruct (writePPM_content name img fs Hw Hwh Hpos) as (fs' & Hwr & Hfile).
  { rewrite Hlen. f_equal. lia. }
  pose proof (skip_space_shorter _ Hfirst) as Hshort.
  eexists fs', _. split; [done|].
  split; [by apply (readPPM_wf_header _ _ _ _ img (data img))|].
  split; [done|]. split; [done|]. split; [done|].
  cbn [data]. rewrite fread3_short by lia. split; [done|].
  rewrite lookup_app_r by lia.
  apply malloc_drop_lookup. lia.
Qed.

Lemma leading_space_sample_lost_witness :
  ∃ fs' out,
    writePPM "in.ppm" feed1 (disk []) = Val fs' ∧
    readPPM zero_locals sevens "in.ppm" fs' = Val out ∧
    width out = width feed1 ∧ height out = height feed1 ∧
    (length (skip_space (data feed1)) < length (data feed1))%nat ∧
    data out =
      skip_space (data feed1)
      ++ drop (length (skip_space (data feed1)))
           (malloc sevens (3 * width feed1 * height feed1)) ∧
    data out !! (length (data feed1) - 1)%nat
    = Some (to_uchar (sevens (length (data feed1) - 1)%nat)).
Proof.
  apply (leading_space_sample_lost zero_locals sevens "in.ppm" feed1 (disk [])).
  - prove_wf.
  - reflexivity.
  - reflexivity.
Defined.

(** The written image [10; 100; 50] comes back as [100; 50; 7] when the
    block held sevens. *)
Example leading_space_sample_lost_1x1 :
  ∃ fs',
    writePPM "in.ppm" feed1 (disk []) = Val fs' ∧
    readPPM zero_locals sevens "in.ppm" fs' = Val (mkImage 1 1 [100; 50; 7]).
Proof. eexists. split; [reflexivity | vm_compute; reflexivity]. Qed.

(** X3: a file whose raster is cut short is not turned away.  [readPPM]
    returns an image of the size the header announces: the bytes of the
    file, those of a last incomplete pixel included, followed by what the
    [malloc] block held. *)
Theorem truncated_raster_accepted init junk name fs w h (raster : list Z) :
  1 ≤ w → 1 ≤ h → 3 * w * h ≤ INT_MAX →
  files fs !! name = Some (ppm_header w h ++ raster) →
  starts_with isspace raster = false →
  (length raster < Z.to_nat (3 * w * h))%nat →
  ∃ out,
    readPPM init junk name fs = Val out ∧
    width out = w ∧ height out = h ∧
    length (data out) = Z.to_nat (3 * w * h) ∧
    data out = raster ++ drop (length raster) (malloc junk (3 * w * h)) ∧
    ∀ i : nat, (length raster ≤ i < Z.to_nat (3 * w * h))%nat →
      data out !! i = Some (to_uchar (junk i)).
Proof.
  intros Hw Hh Hmax Hfile Hfirst Hshort.
  set (img := mkImage w h (replicate (Z.to_nat (3 * w * h)) 0)).
  assert (wf_image img) as Hwf.
  { unfold wf_image, img. cbn [width height data].
    rewrite length_replicate. repeat split; try done.
    apply Forall_replicate. unfold is_uchar. lia. }
  destruct (wf_image_ints img Hwf) as (_ & _ & _ & Hpos). cbn in Hpos.
  eexists. split; [by apply (readPPM_wf_header _ _ _ _ img raster)|].
  cbn [width height data img]. split; [done|]. split; [done|].
  rewrite skip_space_id by done. rewrite fread3_short by lia.
  split; [|split; [done|]].
  - rewrite length_app, length_drop, malloc_length. lia.
  - intros i Hi. rewrite lookup_app_r by lia.
    apply malloc_drop_lookup. lia.
Qed.

Lemma truncated_raster_accepted_witness :
  ∃ out,
    readPPM zero_locals sevens "in.ppm" (disk (ppm_header 2 1 ++ short_raster))
    = Val out ∧
    width out = 2 ∧ height out = 1 ∧
    length (data out) = Z.to_nat (3 * 2 * 1) ∧
    data out = short_raster ++ drop (length short_raster) (malloc sevens (3 * 2 * 1)) ∧
    ∀ i : nat, (length short_raster ≤ i < Z.to_nat (3 * 2 * 1))%nat →
      data out !! i = Some (to_uchar (sevens i)).
Proof.
  apply (truncated_raster_accepted zero_locals sevens "in.ppm"
           (disk (ppm_header 2 1 ++ short_raster)) 2 1 short_raster).
  - lia.
  - lia.
  - unfold INT_MAX. lia.
  - reflexivity.
  - reflexivity.
  - simpl. lia.
Defined.

(** The 2x1 file with four raster bytes decodes to [200; 100; 50; 25; 7; 7]
    when the block held sevens. *)
Example truncated_raster_2x1 :
  readPPM zero_locals sevens "in.ppm" (disk (ppm_header 2 1 ++ short_raster))
  = Val (mkImage 2 1 [200; 100; 50; 25; 7; 7]).
Proof. vm_compute. reflexivity. Qed.

(** ** What [readPPM] returns *)

Section Scanned.
Variable P : Z → Prop.

Lemma skip_space_Forall (s : list Z) : Forall P s → Forall P (skip_space s).
Proof.
  induction 1 as [|c s Hc Hs IH]; [done|]. simpl.
  destruct (isspace c); [done | by constructor].
Qed.

Lemma scan_word_Forall (s : list Z) : Forall P s → Forall P (scan_word s).2.
Proof.
  induction 1 as [|c s Hc Hs IH]; [done|]. simpl.
  destruct (isspace c); [by constructor|].
  by destruct (scan_word s).
Qed.

Lemma scan_digits_Forall (s : list Z) : Forall P s → Forall P (scan_digits s).2.
Proof.
  induction 1 as [|c s Hc Hs IH]; [done|]. simpl.
  destruct (isdigit c); [|by constructor].
  by destruct (scan_digits s).
Qed.

Lemma scan_int_Forall (s : list Z) :
  Forall P s →
  match scan_int s with
  | Matched _ rest | Failed rest => Forall P rest
  | Overflow => True
  end.
Proof.
  intros Hs%skip_space_Forall. unfold scan_int.
  set (s' := skip_space s) in *.
  assert (∀ neg s1, Forall P s1 →
    match (let '(ds, rest) := scan_digits s1 in
           match ds with
           | [] => Failed s1
           | _ :: _ =>
               if in_int (if neg : bool then - decimal ds else decimal ds)
               then Matched (if neg then - decimal ds else decimal ds) rest
               else Overflow
           end) with
    | Matched _ rest | Failed rest => Forall P rest
    | Overflow => True
    end) as Hgo.
  { intros neg s1 Hs1. pose proof (scan_digits_Forall s1 Hs1) as Hr.
    destruct (scan_digits s1) as [[|d ds] rest]; [done|]. simpl in *.
    by destruct (in_int _). }
  destruct s' as [|c s'']; [by apply (Hgo false)|].
  pose proof (Forall_inv_tail Hs) as Htl.
  destruct c as [|p|p]; try by apply (Hgo false).
  repeat (destruct p as [p|p|]; try by apply (Hgo false));
    first [by apply (Hgo true) | by apply (Hgo false)].
Qed.

Lemma scan_header_Forall init (s : list Z) hd rest :
  Forall P s → scan_header init s = Val (hd, rest) → Forall P rest.
Proof.
  intros Hs. unfold scan_header.
  pose proof (scan_word_Forall _ (skip_space_Forall _ Hs)) as Hw.
  destruct (scan_word (skip_space s)) as [[|c word] s1]; simpl in Hw.
  { by intros [= <- <-]. }
  destruct (_ <? _)%nat; [done|].
  pose proof (scan_int_Forall _ (skip_space_Forall _ Hw)) as H1.
  destruct (scan_int (skip_space s1)) as [w s2|s2|]; [| by intros [= <- <-] | done].
  pose proof (scan_int_Forall _ (skip_space_Forall _ H1)) as H2.
  destruct (scan_int (skip_space s2)) as [h s3|s3|]; [| by intros [= <- <-] | done].
  pose proof (scan_int_Forall _ (skip_space_Forall _ H2)) as H3.
  destruct (scan_int (skip_space s3)) as [m s4|s4|]; [| by intros [= <- <-] | done].
  intros [= <- <-]. by apply skip_space_Forall.
Qed.

Lemma fread3_Forall (block : list Z) count (s : list Z) :
  Forall P block → Forall P s → Forall P (fread3 block count s).
Proof.
  intros Hb Hs. unfold fread3. apply Forall_app. split.
  - by apply Forall_take.
  - by apply Forall_drop.
Qed.
End Scanned.

Lemma malloc_uchar junk n : Forall is_uchar (malloc junk n).
Proof.
  unfold malloc. apply Forall_fmap, Forall_forall. intros i _.
  unfold is_uchar, to_uchar. simpl.
  pose proof (Z.mod_pos_bound (junk i) 256). lia.
Qed.

(** X4: whatever file of bytes it is given, an image that [readPPM] returns
    has exactly [3 * width * height] samples, all of them bytes, and a size
    that fits an [int]; with positive dimensions it is well formed. *)
Theorem decoded_image_invariant init junk name fs content img :
  files fs !! name = Some content →
  Forall is_uchar content →
  readPPM init junk name fs = Val img →
  0 ≤ 3 * width img * height img ≤ INT_MAX ∧
  length (data img) = Z.to_nat (3 * width img * height img) ∧
  Forall is_uchar (data img) ∧
  (1 ≤ width img → 1 ≤ height img → wf_image img).
Proof.
  intros Hfile Hbytes. unfold readPPM. rewrite Hfile.
  destruct (scan_header init content) as [[hd rest]| |] eqn:Hscan; [|done..].
  pose proof (scan_header_Forall _ _ _ _ _ Hbytes Hscan) as Hrest.
  rewrite bind_val. destruct (unsupported hd) as [[|]| |]; [done| |done..].
  rewrite bind_val. unfold alloc_pixels, int_val.
  destruct (in_int (3 * hd_w hd)); [|done]. rewrite bind_val.
  destruct (in_int (3 * hd_w hd * hd_h hd)) eqn:Hfit; [|done]. rewrite bind_val.
  destruct (Z.ltb_spec (3 * hd_w hd * hd_h hd) 0) as [|Hpos]; [done|].
  rewrite bind_val.
  destruct (in_int (hd_w hd * hd_h hd)); [|done]. rewrite bind_val.
  intros [= <-]. cbn [width height data].
  apply in_int_spec in Hfit.
  assert (length (fread3 (malloc junk (3 * hd_w hd * hd_h hd)) (hd_w hd * hd_h hd) rest)
          = Z.to_nat (3 * hd_w hd * hd_h hd)) as Hlen.
  { rewrite fread3_length; [by rewrite malloc_length | lia |].
    rewrite malloc_length. f_equal. lia. }
  assert (Forall is_uchar
            (fread3 (malloc junk (3 * hd_w hd * hd_h hd)) (hd_w hd * hd_h hd) rest))
    as Hu by (apply fread3_Forall; [apply malloc_uchar | done]).
  split; [lia|]. split; [done|]. split; [done|].
  intros Hw Hh. unfold wf_image. cbn [width height data].
  repeat split; (done || lia).
Qed.

Lemma decoded_image_invariant_witness :
  0 ≤ 3 * width (mkImage 1 1 [200; 100; 50]) * height (mkImage 1 1 [200; 100; 50])
    ≤ INT_MAX ∧
  length (data (mkImage 1 1 [200; 100; 50]))
  = Z.to_nat (3 * width (mkImage 1 1 [200; 100; 50])
                * height (mkImage 1 1 [200; 100; 50])) ∧
  Forall is_uchar (data (mkImage 1 1 [200; 100; 50])) ∧
  (1 ≤ width (mkImage 1 1 [200; 100; 50]) →
   1 ≤ height (mkImage 1 1 [200; 100; 50]) →
   wf_image (mkImage 1 1 [200; 100; 50])).
Proof.
  apply (decoded_image_invariant zero_locals zeros "in.ppm"
           (disk (ppm_1x1 "P6" "255")) (ppm_1x1 "P6" "255")).
  - reflexivity.
  - vm_compute. repeat constructor; discriminate.
  - vm_compute. reflexivity.
Defined.

(** X5: [readPPM] does not look at the sign of the dimensions.  Two negative
    dimensions are taken as they are and give an image with a negative width
    and height; dimensions of opposite signs make the size of the block
    negative, and the run has no defined behaviour. *)
Theorem dimensions_not_validated init junk name fs w h (raster : list Z) :
  files fs !! name = Some (ppm_header w h ++ raster) →
  in_int (3 * w) = true → in_int h = true →
  (w < 0 → h < 0 → 3 * w * h ≤ INT_MAX →
   ∃ out, readPPM init junk name fs = Val out ∧
          width out = w ∧ height out = h ∧
          length (data out) = Z.to_nat (3 * w * h)) ∧
  (w * h < 0 → readPPM init junk name fs = Undefined).
Proof.
  intros Hfile Hw3 Hh.
  assert (in_int w = true) as Hw.
  { apply in_int_spec. apply in_int_spec in Hw3. unfold INT_MIN, INT_MAX in *. lia. }
  rewrite (readPPM_ppm_header _ _ _ _ _ _ _ Hfile) by done.
  unfold alloc_pixels, int_val. rewrite Hw3, bind_val. split.
  - intros Hwn Hhn Hmax.
    assert (in_int (3 * w * h) = true) as ->.
    { apply in_int_spec. unfold INT_MIN, INT_MAX in *. nia. }
    rewrite bind_val. destruct (Z.ltb_spec (3 * w * h) 0); [nia|].
    rewrite bind_val.
    assert (in_int (w * h) = true) as ->.
    { apply in_int_spec. unfold INT_MIN, INT_MAX in *. nia. }
    rewrite bind_val. eexists. split; [done|]. cbn [width height data].
    split; [done|]. split; [done|].
    rewrite fread3_length; [by rewrite malloc_length | nia |].
    rewrite malloc_length. f_equal. lia.
  - intros Hneg. destruct (in_int (3 * w * h)); [|done].
    rewrite bind_val. destruct (Z.ltb_spec (3 * w * h) 0); [done | lia].
Qed.

Lemma dimensions_not_validated_witness :
  (-2 < 0 → -1 < 0 → 3 * -2 * -1 ≤ INT_MAX →
   ∃ out, readPPM zero_locals zeros "in.ppm"
            (disk (ppm_header (-2) (-1) ++ [1; 2; 3; 4; 5; 6])) = Val out ∧
          width out = -2 ∧ height out = -1 ∧
          length (data out) = Z.to_nat (3 * -2 * -1)) ∧
  (-2 * -1 < 0 →
   readPPM zero_locals zeros "in.ppm"
     (disk (ppm_header (-2) (-1) ++ [1; 2; 3; 4; 5; 6])) = Undefined).
Proof.
  apply (dimensions_not_validated zero_locals zeros "in.ppm"
           (disk (ppm_header (-2) (-1) ++ [1; 2; 3; 4; 5; 6])) (-2) (-1)
           [1; 2; 3; 4; 5; 6]).
  - reflexivity.
  - reflexivity.
  - reflexivity.
Defined.

(** ** The program as a whole *)

Lemma bytes_of_app (s t : string) : bytes_of (s +:+ t) = bytes_of s ++ bytes_of t.
Proof.
  unfold bytes_of. induction s as [|a s IH]; [done|]. simpl. f_equal. exact IH.
Qed.

(** X6: [atoi] reads back every [int] written in decimal, whatever follows the
    digits. *)
Theorem atoi_decimal v (tail : string) :
  in_int v = true →
  starts_with isdigit (bytes_of tail) = false →
  atoi (DecimalString.NilZero.string_of_int (Z.to_int v) +:+ tail) = Val v.
Proof.
  intros Hv Htail. unfold atoi. rewrite bytes_of_app.
  change (bytes_of (DecimalString.NilZero.string_of_int (Z.to_int v)))
    with (print_int v).
  by rewrite scan_int_print_int.
Qed.

Lemma atoi_decimal_witness :
  atoi (DecimalString.NilZero.string_of_int (Z.to_int (-42)) +:+ "px") = Val (-42).
Proof.
  apply (atoi_decimal (-42) "px").
  - reflexivity.
  - reflexivity.
Defined.

(** X7: [main] changes no file but the one named by its second argument, and
    when it ends with a status other than 0 it has changed no file at all. *)
Theorem main_touches_only_output rt argv fs status fs' :
  main rt argv fs = Terminated status fs' →
  writable fs' = writable fs ∧
  (status ≠ 0 → fs' = fs) ∧
  (∀ name, argv !! 2%nat ≠ Some name → files fs' !! name = files fs !! name).
Proof.
  unfold main.
  destruct argv as [|a0 [|a1 [|a2 [|a3 [|a4 argv]]]]];
    try (intros [= <- <-]; done).
  unfold finish.
  destruct (readPPM _ _ _ _) as [img1|s|]; [| by intros [= <- <-] | done].
  destruct (atoi a3) as [t|s|]; [| by intros [= <- <-] | done].
  destruct (apply_filter _ _ _ _ false) as [o1|s|]; [| by intros [= <- <-] | done].
  destruct (readPPM _ _ _ _) as [img2|s|]; [| by intros [= <- <-] | done].
  destruct (apply_filter _ _ _ _ true) as [o2|s|]; [| by intros [= <- <-] | done].
  destruct (writePPM a2 o2 fs) as [fs2|s|] eqn:Hwr; [| by intros [= <- <-] | done].
  intros [= <- <-]. unfold writePPM in Hwr.
  destruct (writable fs a2); [|done].
  destruct (int_val _) as [n| |]; [|done..]. rewrite bind_val in Hwr.
  destruct (_ || _); [done|]. injection Hwr as <-. cbn [files writable].
  split; [done|]. split; [done|].
  intros name Hne. apply lookup_insert_ne. cbn in Hne. congruence.
Qed.

Lemma main_touches_only_output_witness :
  writable (mkWorld (<["out.ppm"%string := ppm_1x1 "P6" "255"]>
                       {[ "in.ppm"%string := ppm_1x1 "P6" "255" ]}) (λ _, true))
  = writable (disk (ppm_1x1 "P6" "255")) ∧
  (0 ≠ 0 →
   mkWorld (<["out.ppm"%string := ppm_1x1 "P6" "255"]>
              {[ "in.ppm"%string := ppm_1x1 "P6" "255" ]}) (λ _, true)
   = disk (ppm_1x1 "P6" "255")) ∧
  (∀ name, ["prog"; "in.ppm"; "out.ppm"; "3"]%string !! 2%nat ≠ Some name →
     files (mkWorld (<["out.ppm"%string := ppm_1x1 "P6" "255"]>
                       {[ "in.ppm"%string := ppm_1x1 "P6" "255" ]}) (λ _, true))
       !! name
     = files (disk (ppm_1x1 "P6" "255")) !! name).
Proof.
  apply (main_touches_only_output rt0 ["prog"; "in.ppm"; "out.ppm"; "3"]%string
           (disk (ppm_1x1 "P6" "255")) 0).
  vm_compute. reflexivity.
Defined.

Lemma apply_filter_total sched junk t img mode :
  schedule sched → wf_image img →
  ∃ out : Image,
    apply_filter sched junk t img mode = Val out ∧
    width out = width img ∧ height out = height img ∧
    length (data out) = length (data img).
Proof.
  intros Hsched Hwf. unfold apply_filter.
  destruct (t =? 1).
  - destruct (applyBlur_result sched junk img mode Hsched Hwf)
      as (out & Hrun & Hw & Hh & Hlen & _). by exists out.
  - destruct (t =? 2).
    + destruct (applyEdgeDetection_result sched junk img mode Hsched Hwf)
        as (out & Hrun & Hw & Hh & Hlen & _). by exists out.
    + by exists img.
Qed.

Lemma readPPM_encode init junk name fs img :
  files fs !! name = Some (encode img) →
  wf_image img → starts_with isspace (data img) = false →
  readPPM init junk name fs = Val img.
Proof.
  intros Hfile Hwf Hfirst.
  destruct (wf_image_ints img Hwf) as (_ & _ & _ & Hpos).
  pose proof Hwf as (_ & _ & _ & Hlen & _).
  rewrite (readPPM_wf_header _ _ _ _ img (data img)) by done.
  rewrite skip_space_id by done.
  rewrite fread3_whole; [by destruct img | lia | |].
  - rewrite malloc_length. f_equal. lia.
  - rewrite Hlen. f_equal. lia.
Qed.

(** X8: on a well-formed image file whose first sample is not white space,
    [main] ends with status 0 whatever the filter argument, and the file it
    writes is the encoding of the run with OpenMP on the second decoding; the
    result of the sequential run is not used. *)
Theorem main_writes_parallel_run rt prog input output filter fs img t :
  schedule (omp_schedule rt) →
  files fs !! input = Some (encode img) →
  wf_image img → starts_with isspace (data img) = false →
  atoi filter = Val t →
  writable fs output = true →
  ∃ out fs',
    apply_filter (omp_schedule rt) (temp_block2 rt) t img true = Val out ∧
    main rt [prog; input; output; filter] fs = Terminated 0 fs' ∧
    files fs' !! output = Some (encode out).
Proof.
  intros Hsched Hfile Hwf Hfirst Hatoi Hw.
  destruct (apply_filter_total (omp_schedule rt) (temp_block1 rt) t img false Hsched Hwf)
    as (o1 & Hrun1 & _).
  destruct (apply_filter_total (omp_schedule rt) (temp_block2 rt) t img true Hsched Hwf)
    as (out & Hrun2 & Hwo & Hho & Hlo).
  destruct (wf_image_ints img Hwf) as (_ & _ & Hwh & Hpos).
  pose proof Hwf as (_ & _ & _ & Hlen & _).
  destruct (writePPM_content output out fs Hw) as (fs' & Hwr & Hout).
  { by rewrite Hwo, Hho. }
  { by rewrite Hwo, Hho. }
  { rewrite Hlo, Hlen, Hwo, Hho. f_equal. lia. }
  exists out, fs'. split; [done|]. split; [|done].
  unfold main. rewrite !(readPPM_encode _ _ _ _ img) by done. cbn [finish].
  rewrite Hatoi. cbn [finish]. rewrite Hrun1. cbn [finish].
  rewrite Hrun2. cbn [finish]. by rewrite Hwr.
Qed.

Lemma main_writes_parallel_run_witness :
  ∃ out fs',
    apply_filter (omp_schedule rt0) (temp_block2 rt0) 1 ramp3 true = Val out ∧
    main rt0 ["prog"; "in.ppm"; "out.ppm"; "1"]%string (disk (encode ramp3))
    = Terminated 0 fs' ∧
    files fs' !! "out.ppm"%string = Some (encode out).
Proof.
  apply (main_writes_parallel_run rt0 "prog" "in.ppm" "out.ppm" "1"
           (disk (encode ramp3)) ramp3 1).
  - intros its. reflexivity.
  - reflexivity.
  - prove_wf.
  - reflexivity.
  - reflexivity.
  - reflexivity.
Defined.

(** X9: on a well-formed image file and whatever the filter argument, [main]
    ends with status 1 and changes no file when the output path cannot be
    opened for writing. *)
Theorem main_unwritable_output rt prog input output filter fs img t :
  schedule (omp_schedule rt) →
  files fs !! input = Some (encode img) →
  wf_image img → starts_with isspace (data img) = false →
  atoi filter = Val t →
  writable fs output = false →
  main rt [prog; input; output; filter] fs = Terminated 1 fs.
Proof.
  intros Hsched Hfile Hwf Hfirst Hatoi Hw.
  destruct (apply_filter_total (omp_schedule rt) (temp_block1 rt) t img false Hsched Hwf)
    as (o1 & Hrun1 & _).
  destruct (apply_filter_total (omp_schedule rt) (temp_block2 rt) t img true Hsched Hwf)
    as (out & Hrun2 & _).
  unfold main. rewrite !(readPPM_encode _ _ _ _ img) by done. cbn [finish].
  rewrite Hatoi. cbn [finish]. rewrite Hrun1. cbn [finish].
  rewrite Hrun2. cbn [finish]. unfold writePPM. by rewrite Hw.
Qed.

Lemma main_unwritable_output_witness :
  main rt0 ["prog"; "in.ppm"; "out.ppm"; "2"]%string
    (mkWorld {[ "in.ppm"%string := encode ramp3 ]} (λ _, false))
  = Terminated 1 (mkWorld {[ "in.ppm"%string := encode ramp3 ]} (λ _, false)).
Proof.
  apply (main_unwritable_output rt0 "prog" "in.ppm" "out.ppm" "2"
           (mkWorld {[ "in.ppm"%string := encode ramp3 ]} (λ _, false)) ramp3 2).
  - intros its. reflexivity.
  - reflexivity.
  - prove_wf.
  - reflexivity.
  - reflexivity.
  - reflexivity.
Defined.

(** ** More on the two filters *)

Lemma index_pixel w h (i : nat) :
  1 ≤ w → (i < Z.to_nat (3 * w * h))%nat →
  ∃ x y c, 0 ≤ x < w ∧ 0 ≤ y < h ∧ 0 ≤ c < 3 ∧
           i = Z.to_nat (3 * (y * w + x) + c).
Proof.
  intros Hw Hi. set (j := Z.of_nat i).
  assert (0 ≤ j < 3 * w * h) as Hj by lia.
  assert (0 ≤ j / 3 < w * h) as Hp.
  { split; [apply Z.div_pos; lia | apply Z.div_lt_upper_bound; lia]. }
  pose proof (Z.div_mod j 3 ltac:(lia)) as Ej.
  pose proof (Z.mod_pos_bound j 3 ltac:(lia)) as Hc.
  pose proof (Z.div_mod (j / 3) w ltac:(lia)) as Ep.
  pose proof (Z.mod_pos_bound (j / 3) w ltac:(lia)) as Hx.
  assert (0 ≤ j / 3 / w < h) as Hy.
  { split; [apply Z.div_pos; lia | apply Z.div_lt_upper_bound; lia]. }
  exists ((j / 3) mod w), (j / 3 / w), (j mod 3).
  repeat split; try lia.
Qed.

Lemma pixels_Forall (P : Z → Prop) w h (l : list Z) :
  1 ≤ w → length l = Z.to_nat (3 * w * h) →
  (∀ x y c, 0 ≤ x < w → 0 ≤ y < h → 0 ≤ c < 3 → P (sample w l x y c)) →
  Forall P l.
Proof.
  intros Hw Hlen Hpix. apply Forall_lookup. intros i v Hv.
  pose proof (lookup_lt_Some _ _ _ Hv) as Hi. rewrite Hlen in Hi.
  destruct (index_pixel w h i Hw Hi) as (x & y & c & Hx & Hy & Hc & ->).
  specialize (Hpix x y c Hx Hy Hc). unfold sample in Hpix.
  by rewrite Hv in Hpix.
Qed.

Lemma to_uchar_uchar v : is_uchar (to_uchar v).
Proof.
  unfold is_uchar, to_uchar. pose proof (Z.mod_pos_bound v 256). lia.
Qed.

Lemma gradient_magnitude_uchar w d x y c : is_uchar (gradient_magnitude w d x y c).
Proof.
  unfold is_uchar, gradient_magnitude.
  pose proof (Z.sqrt_nonneg
    (convolve Kx w d x y c * convolve Kx w d x y c
     + convolve Ky w d x y c * convolve Ky w d x y c)).
  lia.
Qed.

Lemma interior_dec w h x y : interior w h x y ∨ ¬ interior w h x y.
Proof. unfold interior. lia. Qed.

(** X10: [applyBlur] is safe on every well-formed image: whatever the
    schedule and the contents of the scratch block, it reads and writes
    inside its buffers, overflows nothing and returns a well-formed image of
    the same width and height. *)
Theorem applyBlur_preserves_wf sched junk img use_openmp :
  schedule sched → wf_image img →
  ∃ out : Image,
    applyBlur sched junk img use_openmp = Val out ∧
    width out = width img ∧ height out = height img ∧ wf_image out.
Proof.
  intros Hsched Hwf.
  destruct (applyBlur_result sched junk img use_openmp Hsched Hwf)
    as (out & Hrun & Hw & Hh & Hlen & Hpix).
  exists out. split; [done|]. split; [done|]. split; [done|].
  pose proof Hwf as (Hw1 & Hh1 & Hmax & Hl & Hd).
  unfold wf_image. rewrite Hw, Hh, Hlen. repeat split; try done.
  apply (pixels_Forall _ (width img) (height img)); [done | congruence |].
  intros x y c Hx Hy Hc. destruct (Hpix x y c Hx Hy Hc) as [Hin Hout].
  unfold pixel in *. rewrite Hw in *.
  destruct (interior_dec (width img) (height img) x y) as [Hi|Hi].
  - rewrite Hin by done. by apply average_uchar.
  - rewrite Hout by done. apply to_uchar_uchar.
Qed.

Lemma applyBlur_preserves_wf_witness :
  ∃ out : Image,
    applyBlur sequential sevens ramp3 true = Val out ∧
    width out = width ramp3 ∧ height out = height ramp3 ∧ wf_image out.
Proof.
  apply (applyBlur_preserves_wf sequential sevens ramp3 true).
  - intros its. reflexivity.
  - prove_wf.
Defined.

(** X11: [applyEdgeDetection] is safe on every well-formed image in the same
    way: no access outside a buffer, no overflow, no conversion of a
    [double] out of range, and a well-formed image of the same width and
    height. *)
Theorem applyEdgeDetection_preserves_wf sched junk img use_openmp :
  schedule sched → wf_image img →
  ∃ out : Image,
    applyEdgeDetection sched junk img use_openmp = Val out ∧
    width out = width img ∧ height out = height img ∧ wf_image out.
Proof.
  intros Hsched Hwf.
  destruct (applyEdgeDetection_result sched junk img use_openmp Hsched Hwf)
    as (out & Hrun & Hw & Hh & Hlen & Hpix).
  exists out. split; [done|]. split; [done|]. split; [done|].
  pose proof Hwf as (Hw1 & Hh1 & Hmax & Hl & Hd).
  unfold wf_image. rewrite Hw, Hh, Hlen. repeat split; try done.
  apply (pixels_Forall _ (width img) (height img)); [done | congruence |].
  intros x y c Hx Hy Hc. destruct (Hpix x y c Hx Hy Hc) as [Hin Hout].
  unfold pixel in *. rewrite Hw in *.
  destruct (interior_dec (width img) (height img) x y) as [Hi|Hi].
  - rewrite Hin by done. apply gradient_magnitude_uchar.
  - rewrite Hout by done. apply to_uchar_uchar.
Qed.

Lemma applyEdgeDetection_preserves_wf_witness :
  ∃ out : Image,
    applyEdgeDetection sequential sevens ramp3 true = Val out ∧
    width out = width ramp3 ∧ height out = height ramp3 ∧ wf_image out.
Proof.
  apply (applyEdgeDetection_preserves_wf sequential sevens ramp3 true).
  - intros its. reflexivity.
  - prove_wf.
Defined.

(** X12: with the same contents of the scratch block, the run with OpenMP
    returns, under every schedule, exactly what the sequential run returns;
    this holds for both filters. *)
Theorem parallel_equals_sequential sched junk img :
  schedule sched → wf_image img →
  applyBlur sched junk img true = applyBlur sched junk img false ∧
  applyEdgeDetection sched junk img true = applyEdgeDetection sched junk img false.
Proof.
  intros Hsched Hwf. split.
  - by apply applyBlur_schedule_independent.
  - by apply applyEdgeDetection_schedule_independent.
Qed.

Lemma parallel_equals_sequential_witness :
  applyBlur reverse sevens ramp4 true = applyBlur reverse sevens ramp4 false ∧
  applyEdgeDetection reverse sevens ramp4 true
  = applyEdgeDetection reverse sevens ramp4 false.
Proof.
  apply (parallel_equals_sequential reverse sevens ramp4).
  - intros its. apply reverse_Permutation.
  - prove_wf.
Defined.

(** X13: every sample of the output outside the interior (the border of the
    image, and the whole image when it is narrower or lower than 3) is the
    byte the uninitialised scratch block held at that offset, for both
    filters: it does not depend on the input. *)
Theorem non_interior_is_scratch sched junk img use_openmp x y c :
  schedule sched → wf_image img →
  0 ≤ x < width img → 0 ≤ y < height img → 0 ≤ c < 3 →
  ¬ interior (width img) (height img) x y →
  (∃ out, applyBlur sched junk img use_openmp = Val out ∧
          pixel out x y c = to_uchar (junk (Z.to_nat (3 * (y * width img + x) + c)))) ∧
  (∃ out, applyEdgeDetection sched junk img use_openmp = Val out ∧
          pixel out x y c = to_uchar (junk (Z.to_nat (3 * (y * width img + x) + c)))).
Proof.
  intros Hsched Hwf Hx Hy Hc Hni. split.
  - destruct (applyBlur_result sched junk img use_openmp Hsched Hwf)
      as (out & Hrun & _ & _ & _ & Hpix).
    exists out. split; [done|]. by apply Hpix.
  - destruct (applyEdgeDetection_result sched junk img use_openmp Hsched Hwf)
      as (out & Hrun & _ & _ & _ & Hpix).
    exists out. split; [done|]. by apply Hpix.
Qed.

Lemma non_interior_is_scratch_witness :
  (∃ out, applyBlur sequential sevens ramp3 false = Val out ∧
          pixel out 2 1 0 = to_uchar (sevens (Z.to_nat (3 * (1 * width ramp3 + 2) + 0)))) ∧
  (∃ out, applyEdgeDetection sequential sevens ramp3 false = Val out ∧
          pixel out 2 1 0 = to_uchar (sevens (Z.to_nat (3 * (1 * width ramp3 + 2) + 0)))).
Proof.
  apply (non_interior_is_scratch sequential sevens ramp3 false 2 1 0).
  - intros its. reflexivity.
  - prove_wf.
  - simpl; lia.
  - simpl; lia.
  - lia.
  - unfold interior. simpl. lia.
Defined.

(** X14: on an image narrower or lower than 3 pixels both filters read
    nothing from the input and return the scratch block as the image. *)
Theorem small_image_is_scratch sched junk img use_openmp :
  schedule sched → wf_image img →
  width img < 3 ∨ height img < 3 →
  applyBlur sched junk img use_openmp
  = Val (mkImage (width img) (height img) (malloc junk (3 * width img * height img))) ∧
  applyEdgeDetection sched junk img use_openmp
  = Val (mkImage (width img) (height img) (malloc junk (3 * width img * height img))).
Proof.
  intros Hsched Hwf Hsmall. split.
  - by apply applyBlur_small.
  - by apply applyEdgeDetection_small.
Qed.

Lemma small_image_is_scratch_witness :
  applyBlur sequential sevens dot1 true
  = Val (mkImage (width dot1) (height dot1)
           (malloc sevens (3 * width dot1 * height dot1))) ∧
  applyEdgeDetection sequential sevens dot1 true
  = Val (mkImage (width dot1) (height dot1)
           (malloc sevens (3 * width dot1 * height dot1))).
Proof.
  apply (small_image_is_scratch sequential sevens dot1 true).
  - intros its. reflexivity.
  - prove_wf.
  - left. simpl. lia.
Defined.

(** X15: an interior pixel of the output of either filter is the same
    whatever the scratch blocks hold, whatever the schedules, and whether
    OpenMP is used or not. *)
Theorem interior_is_deterministic
    sched1 sched2 junk1 junk2 img mode1 mode2 x y c :
  schedule sched1 → schedule sched2 → wf_image img →
  interior (width img) (height img) x y → 0 ≤ c < 3 →
  (∃ out1 out2,
     applyBlur sched1 junk1 img mode1 = Val out1 ∧
     applyBlur sched2 junk2 img mode2 = Val out2 ∧
     pixel out1 x y c = pixel out2 x y c) ∧
  (∃ out1 out2,
     applyEdgeDetection sched1 junk1 img mode1 = Val out1 ∧
     applyEdgeDetection sched2 junk2 img mode2 = Val out2 ∧
     pixel out1 x y c = pixel out2 x y c).
Proof.
  intros Hs1 Hs2 Hwf Hint Hc. split.
  - by apply applyBlur_interior_agrees.
  - by apply applyEdgeDetection_interior_agrees.
Qed.

Lemma interior_is_deterministic_witness :
  (∃ out1 out2,
     applyBlur sequential zeros ramp4 false = Val out1 ∧
     applyBlur reverse sevens ramp4 true = Val out2 ∧
     pixel out1 2 1 2 = pixel out2 2 1 2) ∧
  (∃ out1 out2,
     applyEdgeDetection sequential zeros ramp4 false = Val out1 ∧
     applyEdgeDetection reverse sevens ramp4 true = Val out2 ∧
     pixel out1 2 1 2 = pixel out2 2 1 2).
Proof.
  apply (interior_is_deterministic sequential reverse zeros sevens ramp4 false true 2 1 2).
  - intros its. reflexivity.
  - intros its. apply reverse_Permutation.
  - prove_wf.
  - unfold interior. simpl. lia.
  - lia.
Defined.

(** X16: the blur never leaves the range of its neighbourhood: when the nine
    samples around an interior pixel lie between [lo] and [hi], so does the
    output sample. *)
Theorem blur_within_neighbourhood sched junk img use_openmp x y c lo hi :
  schedule sched → wf_image img →
  interior (width img) (height img) x y → 0 ≤ c < 3 →
  (∀ dx dy, -1 ≤ dx ≤ 1 → -1 ≤ dy ≤ 1 → lo ≤ pixel img (x + dx) (y + dy) c ≤ hi) →
  ∃ out, applyBlur sched junk img use_openmp = Val out ∧ lo ≤ pixel out x y c ≤ hi.
Proof.
  intros Hsched Hwf Hint Hc Hrange. pose proof Hint as [Hx Hy].
  destruct (applyBlur_result sched junk img use_openmp Hsched Hwf)
    as (out & Hrun & _ & _ & _ & Hpix).
  destruct (Hpix x y c) as [Hin _]; [lia..|].
  exists out. split; [done|]. rewrite Hin by done.
  pose proof (blur_sum_bounds (width img) (data img) x y c ltac:(apply Hwf)) as Hb.
  unfold average. rewrite Z.quot_div_nonneg by lia.
  assert (9 * lo ≤ neighborhood_sum (width img) (data img) x y c ≤ 9 * hi) as Hs.
  { unfold pixel in Hrange.
    cbv [neighborhood_sum sum_of offsets fmap list_fmap foldr].
    pose proof (Hrange (-1) (-1)); pose proof (Hrange 0 (-1));
      pose proof (Hrange 1 (-1)); pose proof (Hrange (-1) 0);
      pose proof (Hrange 0 0); pose proof (Hrange 1 0);
      pose proof (Hrange (-1) 1); pose proof (Hrange 0 1);
      pose proof (Hrange 1 1). lia. }
  split.
  - apply Z.div_le_lower_bound; lia.
  - apply Z.div_le_upper_bound; lia.
Qed.

Lemma blur_within_neighbourhood_witness :
  ∃ out, applyBlur sequential zeros ramp3 false = Val out ∧
         0 ≤ pixel out 1 1 0 ≤ 216.
Proof.
  apply (blur_within_neighbourhood sequential zeros ramp3 false 1 1 0 0 216).
  - intros its. reflexivity.
  - prove_wf.
  - unfold interior. simpl. lia.
  - lia.
  - intros dx dy Hdx Hdy.
    assert (dx = -1 ∨ dx = 0 ∨ dx = 1) as [-> | [-> | ->]] by lia;
      (assert (dy = -1 ∨ dy = 0 ∨ dy = 1) as [-> | [-> | ->]] by lia);
      vm_compute; split; discriminate.
Defined.

Lemma applyBlur_constant_interior_witness :
  ∃ out : Image,
    applyBlur sequential zeros white3 false = Val out ∧
    pixel out 1 1 0 = pixel white3 1 1 0.
Proof.
  apply (applyBlur_constant_interior sequential zeros white3 false 255 255 255 1 1 0).
  - intros its. reflexivity.
  - prove_wf.
  - intros x y Hx Hy. simpl in Hx, Hy.
    assert (x = 0 ∨ x = 1 ∨ x = 2) as [-> | [-> | ->]] by lia;
      (assert (y = 0 ∨ y = 1 ∨ y = 2) as [-> | [-> | ->]] by lia);
      vm_compute; repeat split; reflexivity.
  - unfold interior. simpl. lia.
  - lia.
Defined.

(** X18: the blur is monotone: when every sample of one image is at most the
    sample of another image of the same size at the same place, the same
    holds for the interior samples of the two outputs. *)
Theorem blur_monotone sched1 sched2 junk1 junk2 img1 img2 mode1 mode2 x y c :
  schedule sched1 → schedule sched2 →
  wf_image img1 → wf_image img2 →
  width img2 = width img1 → height img2 = height img1 →
  (∀ x y c, 0 ≤ x < width img1 → 0 ≤ y < height img1 → 0 ≤ c < 3 →
     pixel img1 x y c ≤ pixel img2 x y c) →
  interior (width img1) (height img1) x y → 0 ≤ c < 3 →
  ∃ out1 out2,
    applyBlur sched1 junk1 img1 mode1 = Val out1 ∧
    applyBlur sched2 junk2 img2 mode2 = Val out2 ∧
    pixel out1 x y c ≤ pixel out2 x y c.
Proof.
  intros Hs1 Hs2 Hwf1 Hwf2 Ew Eh Hle Hint Hc. pose proof Hint as [Hx Hy].
  destruct (applyBlur_result sched1 junk1 img1 mode1 Hs1 Hwf1)
    as (out1 & Hrun1 & _ & _ & _ & Hpix1).
  destruct (applyBlur_result sched2 junk2 img2 mode2 Hs2 Hwf2)
    as (out2 & Hrun2 & _ & _ & _ & Hpix2).
  destruct (Hpix1 x y c) as [E1 _]; [lia..|].
  destruct (Hpix2 x y c) as [E2 _]; [lia..|].
  exists out1, out2. split; [done|]. split; [done|].
  rewrite E1 by done. rewrite E2 by (by rewrite Ew, Eh).
  pose proof (blur_sum_bounds (width img1) (data img1) x y c ltac:(apply Hwf1)).
  pose proof (blur_sum_bounds (width img2) (data img2) x y c ltac:(apply Hwf2)).
  unfold average. rewrite !Z.quot_div_nonneg by lia.
  apply Z.div_le_mono; [lia|].
  unfold pixel in Hle. rewrite Ew in Hle |- *.
  cbv [neighborhood_sum sum_of offsets fmap list_fmap foldr].
  pose proof (λ dx dy Hdx Hdy, Hle (x + dx) (y + dy) c Hdx Hdy Hc) as H9.
  pose proof (H9 (-1) (-1)); pose proof (H9 0 (-1)); pose proof (H9 1 (-1));
    pose proof (H9 (-1) 0); pose proof (H9 0 0); pose proof (H9 1 0);
    pose proof (H9 (-1) 1); pose proof (H9 0 1); pose proof (H9 1 1).
  lia.
Qed.

Lemma blur_monotone_witness :
  ∃ out1 out2,
    applyBlur sequential zeros ramp3 false = Val out1 ∧
    applyBlur sequential sevens white3 true = Val out2 ∧
    pixel out1 1 1 1 ≤ pixel out2 1 1 1.
Proof.
  apply (blur_monotone sequential sequential zeros sevens ramp3 white3 false true 1 1 1).
  - intros its. reflexivity.
  - intros its. reflexivity.
  - prove_wf.
  - prove_wf.
  - reflexivity.
  - reflexivity.
  - intros x y c Hx Hy Hc. simpl in Hx, Hy.
    assert (x = 0 ∨ x = 1 ∨ x = 2) as [-> | [-> | ->]] by lia;
      (assert (y = 0 ∨ y = 1 ∨ y = 2) as [-> | [-> | ->]] by lia);
      (assert (c = 0 ∨ c = 1 ∨ c = 2) as [-> | [-> | ->]] by lia);
      vm_compute; discriminate.
  - unfold interior. simpl. lia.
  - lia.
Defined.

(** X19: an interior sample of the Sobel output is 0 exactly when both
    gradients are 0, and 255 exactly when the sum of their squares is at
    least 255 * 255. *)
Theorem sobel_zero_and_saturation sched junk img use_openmp x y c :
  schedule sched → wf_image img →
  interior (width img) (height img) x y → 0 ≤ c < 3 →
  ∃ out,
    applyEdgeDetection sched junk img use_openmp = Val out ∧
    (pixel out x y c = 0 ↔
     convolve Kx (width img) (data img) x y c = 0 ∧
     convolve Ky (width img) (data img) x y c = 0) ∧
    (pixel out x y c = 255 ↔
     65025 ≤ convolve Kx (width img) (data img) x y c
             * convolve Kx (width img) (data img) x y c
             + convolve Ky (width img) (data img) x y c
               * convolve Ky (width img) (data img) x y c).
Proof.
  intros Hsched Hwf Hint Hc. pose proof Hint as [Hx Hy].
  destruct (applyEdgeDetection_result sched junk img use_openmp Hsched Hwf)
    as (out & Hrun & _ & _ & _ & Hpix).
  destruct (Hpix x y c) as [Hin _]; [lia..|].
  exists out. split; [done|]. rewrite Hin by done.
  unfold gradient_magnitude.
  set (gx := convolve Kx (width img) (data img) x y c).
  set (gy := convolve Ky (width img) (data img) x y c).
  assert (0 ≤ gx * gx + gy * gy) as Hs by nia.
  pose proof (Z.sqrt_spec _ Hs) as Hsq. cbv zeta in Hsq.
  pose proof (Z.sqrt_nonneg (gx * gx + gy * gy)) as Hnn.
  set (r := Z.sqrt (gx * gx + gy * gy)) in *.
  split; split.
  - intros E. assert (r = 0) as Hr by lia. rewrite Hr in Hsq. nia.
  - intros [-> ->]. subst r. reflexivity.
  - intros E. assert (255 ≤ r) by lia. nia.
  - intros E. assert (255 ≤ r) by nia. lia.
Qed.

Lemma sobel_zero_and_saturation_witness :
  ∃ out,
    applyEdgeDetection sequential zeros step3 false = Val out ∧
    (pixel out 1 1 0 = 0 ↔
     convolve Kx (width step3) (data step3) 1 1 0 = 0 ∧
     convolve Ky (width step3) (data step3) 1 1 0 = 0) ∧
    (pixel out 1 1 0 = 255 ↔
     65025 ≤ convolve Kx (width step3) (data step3) 1 1 0
             * convolve Kx (width step3) (data step3) 1 1 0
             + convolve Ky (width step3) (data step3) 1 1 0
               * convolve Ky (width step3) (data step3) 1 1 0).
Proof.
  apply (sobel_zero_and_saturation sequential zeros step3 false 1 1 0).
  - intros its. reflexivity.
  - prove_wf.
  - unfold interior. simpl. lia.
  - lia.
Defined.

(** X20: the Sobel filter sees differences only: two images of the same size
    whose samples differ by one constant everywhere have the same interior
    output. *)
Theorem sobel_ignores_offset sched1 sched2 junk1 junk2 img1 img2 mode1 mode2 k x y c :
  schedule sched1 → schedule sched2 →
  wf_image img1 → wf_image img2 →
  width img2 = width img1 → height img2 = height img1 →
  (∀ x y c, 0 ≤ x < width img1 → 0 ≤ y < height img1 → 0 ≤ c < 3 →
     pixel img2 x y c = pixel img1 x y c + k) →
  interior (width img1) (height img1) x y → 0 ≤ c < 3 →
  ∃ out1 out2,
    applyEdgeDetection sched1 junk1 img1 mode1 = Val out1 ∧
    applyEdgeDetection sched2 junk2 img2 mode2 = Val out2 ∧
    pixel out1 x y c = pixel out2 x y c.
Proof.
  intros Hs1 Hs2 Hwf1 Hwf2 Ew Eh Hoff Hint Hc. pose proof Hint as [Hx Hy].
  destruct (applyEdgeDetection_result sched1 junk1 img1 mode1 Hs1 Hwf1)
    as (out1 & Hrun1 & _ & _ & _ & Hpix1).
  destruct (applyEdgeDetection_result sched2 junk2 img2 mode2 Hs2 Hwf2)
    as (out2 & Hrun2 & _ & _ & _ & Hpix2).
  destruct (Hpix1 x y c) as [E1 _]; [lia..|].
  destruct (Hpix2 x y c) as [E2 _]; [lia..|].
  exists out1, out2. split; [done|]. split; [done|].
  rewrite E1 by done. rewrite E2 by (by rewrite Ew, Eh).
  unfold gradient_magnitude. rewrite !convolve_Kx, !convolve_Ky.
  unfold pixel in Hoff. rewrite Ew in Hoff |- *.
  rewrite !(Hoff (x + _) (y + _) c) by lia.
  do 2 f_equal. ring.
Qed.

Lemma sobel_ignores_offset_witness :
  ∃ out1 out2,
    applyEdgeDetection sequential zeros ramp3 false = Val out1 ∧
    applyEdgeDetection sequential sevens
      (mkImage 3 3 ((λ i, 9 * Z.of_nat i + 20) <$> seq 0 27)) true = Val out2 ∧
    pixel out1 1 1 0 = pixel out2 1 1 0.
Proof.
  apply (sobel_ignores_offset sequential sequential zeros sevens ramp3
           (mkImage 3 3 ((λ i, 9 * Z.of_nat i + 20) <$> seq 0 27)) false true 20 1 1 0).
  - intros its. reflexivity.
  - intros its. reflexivity.
  - prove_wf.
  - prove_wf.
  - reflexivity.
  - reflexivity.
  - intros x y c Hx Hy Hc. simpl in Hx, Hy.
    assert (x = 0 ∨ x = 1 ∨ x = 2) as [-> | [-> | ->]] by lia;
      (assert (y = 0 ∨ y = 1 ∨ y = 2) as [-> | [-> | ->]] by lia);
      (assert (c = 0 ∨ c = 1 ∨ c = 2) as [-> | [-> | ->]] by lia);
      reflexivity.
  - unfold interior. simpl. lia.
  - lia.
Defined.

(** ** Headers in general *)

Lemma skip_space_blank (ws s : list Z) :
  Forall (λ c, isspace c = true) ws → skip_space (ws ++ s) = skip_space s.
Proof. induction 1 as [|c ws Hc _ IH]; [done|]. simpl. by rewrite Hc. Qed.

Lemma scan_int_blank (ws s : list Z) :
  Forall (λ c, isspace c = true) ws → scan_int (ws ++ s) = scan_int s.
Proof.
  intros Hws. rewrite <- (scan_int_skip (ws ++ s)), skip_space_blank by done.
  apply scan_int_skip.
Qed.

Lemma blank_starts (ws s : list Z) :
  blank ws → starts_with isspace (ws ++ s) = true ∧ starts_with isdigit (ws ++ s) = false.
Proof.
  intros [Hne Hws]. destruct ws as [|c ws]; [done|].
  pose proof (Forall_inv Hws) as Hc. simpl in *. split; [done|].
  unfold isspace, isdigit in *. lia.
Qed.

Lemma scan_word_app (word rest : list Z) :
  Forall (λ c, isspace c = false) word →
  starts_with isspace rest = true →
  scan_word (word ++ rest) = (word, rest).
Proof.
  intros Hw Hrest. induction Hw as [|c word Hc _ IH]; simpl.
  - destruct rest as [|c rest]; [done|]. simpl in *. by rewrite Hrest.
  - by rewrite Hc, IH.
Qed.

Lemma scan_header_text init magic ws1 w ws2 h ws3 m ws4 (raster : list Z) :
  magic ≠ [] → Forall (λ c, isspace c = false) magic → (length magic ≤ 2)%nat →
  blank ws1 → blank ws2 → blank ws3 → blank ws4 →
  in_int w = true → in_int h = true → in_int m = true →
  scan_header init (header_text magic ws1 w ws2 h ws3 m ws4 ++ raster) =
  Val (mkHeader (magic ++ [0] ++ drop (length magic + 1) (format init)) w h m,
       skip_space raster).
Proof.
  intros Hne Hmagic Hlen B1 B2 B3 B4 Hw Hh Hm.
  unfold scan_header, header_text. rewrite <- !app_assoc.
  rewrite skip_space_id.
  2:{ destruct magic as [|c magic]; [done|]. simpl. apply (Forall_inv Hmagic). }
  rewrite scan_word_app; [|done | apply blank_starts, B1].
  destruct magic as [|c magic]; [done|].
  destruct (Nat.ltb_spec 3 (length (c :: magic) + 1)); [lia|].
  rewrite scan_int_skip, scan_int_blank by apply B1.
  rewrite scan_int_print_int; [|done | apply blank_starts, B2].
  rewrite scan_int_skip, scan_int_blank by apply B2.
  rewrite scan_int_print_int; [|done | apply blank_starts, B3].
  rewrite scan_int_skip, scan_int_blank by apply B3.
  rewrite scan_int_print_int; [|done | apply blank_starts, B4].
  by rewrite skip_space_blank by apply B4.
Qed.

(** X21: the fields of a header may be separated by any white space (spaces,
    tabs, line ends, any number of them): the file decodes to the image
    whose samples follow the header. *)
Theorem header_white_space_is_free init junk name fs ws1 ws2 ws3 ws4 img :
  blank ws1 → blank ws2 → blank ws3 → blank ws4 →
  wf_image img → starts_with isspace (data img) = false →
  files fs !! name =
    Some (header_text (bytes_of "P6") ws1 (width img) ws2 (height img) ws3
            MAX_COLOR ws4 ++ data img) →
  readPPM init junk name fs = Val img.
Proof.
  intros B1 B2 B3 B4 Hwf Hfirst Hfile.
  destruct (wf_image_ints img Hwf) as (Hw & Hh & Hwh & Hpos).
  pose proof Hwf as (_ & _ & _ & Hlen & _).
  unfold readPPM. rewrite Hfile.
  rewrite (scan_header_text init (bytes_of "P6"));
    [ | discriminate | by repeat constructor | simpl; lia | done..].
  rewrite bind_val. change (unsupported _) with (@Val bool false).
  rewrite bind_val. cbn [hd_w hd_h].
  rewrite alloc_pixels_wf by done. rewrite bind_val.
  unfold int_val. rewrite Hwh, bind_val.
  rewrite skip_space_id by done.
  rewrite fread3_whole; [by destruct img | lia | |].
  - rewrite malloc_length. f_equal. lia.
  - rewrite Hlen. f_equal. lia.
Qed.

Lemma header_white_space_is_free_witness :
  readPPM zero_locals zeros "in.ppm"
    (disk (header_text (bytes_of "P6") [32; 9] 1 [13; 10] 1 [10; 10] MAX_COLOR [32]
           ++ [200; 100; 50]))
  = Val (mkImage 1 1 [200; 100; 50]).
Proof.
  apply (header_white_space_is_free zero_locals zeros "in.ppm"
           (disk (header_text (bytes_of "P6") [32; 9] 1 [13; 10] 1 [10; 10]
                    MAX_COLOR [32] ++ [200; 100; 50]))
           [32; 9] [13; 10] [10; 10] [32] (mkImage 1 1 [200; 100; 50])).
  - split; [discriminate | repeat constructor].
  - split; [discriminate | repeat constructor].
  - split; [discriminate | repeat constructor].
  - split; [discriminate | repeat constructor].
  - prove_wf.
  - reflexivity.
  - reflexivity.
Defined.

Lemma cstring_short_magic (magic tail : list Z) :
  magic ≠ [] → (length magic ≤ 2)%nat → magic ≠ [80; 54] →
  ∃ str, cstring (magic ++ [0] ++ tail) = Some str ∧ str ≠ [80; 54].
Proof.
  intros Hne Hlen Hdiff.
  destruct magic as [|a [|b [|c magic]]]; [done | | | simpl in Hlen; lia]; simpl.
  - destruct (a =? 0); eexists; (split; [reflexivity | discriminate]).
  - destruct (a =? 0); [eexists; split; [reflexivity | discriminate]|].
    destruct (b =? 0); eexists; (split; [reflexivity|]); [discriminate | done].
Qed.

(** X22: a file with a complete header is turned away when its magic word (of
    one or two characters) is not P6 or when its maximum is not 255: [main]
    ends with status 1 before any filter runs, and no file is changed. *)
Theorem unsupported_file_rejected rt prog input output filter fs
    magic ws1 w ws2 h ws3 m ws4 (raster : list Z) :
  magic ≠ [] → Forall (λ c, isspace c = false) magic → (length magic ≤ 2)%nat →
  blank ws1 → blank ws2 → blank ws3 → blank ws4 →
  in_int w = true → in_int h = true → in_int m = true →
  magic ≠ bytes_of "P6" ∨ m ≠ MAX_COLOR →
  files fs !! input = Some (header_text magic ws1 w ws2 h ws3 m ws4 ++ raster) →
  main rt [prog; input; output; filter] fs = Terminated 1 fs.
Proof.
  intros Hne Hmagic Hlen B1 B2 B3 B4 Hw Hh Hm Hbad Hfile.
  unfold main, readPPM. rewrite Hfile, scan_header_text by done.
  rewrite bind_val. unfold unsupported. cbn [format maxColor].
  destruct (decide (magic = bytes_of "P6")) as [->|Hdiff].
  - destruct Hbad as [|Hbad]; [done|]. simpl.
    destruct (Z.eqb_spec m MAX_COLOR); done.
  - destruct (cstring_short_magic magic (drop (length magic + 1) (format (locals1 rt))))
      as (str & -> & Hstr); [done..|].
    rewrite bool_decide_false by done. reflexivity.
Qed.

Lemma unsupported_file_rejected_witness :
  main rt0 ["prog"; "in.ppm"; "out.ppm"; "1"]%string
    (disk (header_text (bytes_of "P3") [10] 1 [32] 1 [10] 65535 [10] ++ [200; 100; 50]))
  = Terminated 1
      (disk (header_text (bytes_of "P3") [10] 1 [32] 1 [10] 65535 [10] ++ [200; 100; 50])).
Proof.
  apply (unsupported_file_rejected rt0 "prog" "in.ppm" "out.ppm" "1"
           (disk (header_text (bytes_of "P3") [10] 1 [32] 1 [10] 65535 [10]
                  ++ [200; 100; 50]))
           (bytes_of "P3") [10] 1 [32] 1 [10] 65535 [10] [200; 100; 50]).
  - discriminate.
  - repeat constructor.
  - simpl. lia.
  - split; [discriminate | repeat constructor].
  - split; [discriminate | repeat constructor].
  - split; [discriminate | repeat constructor].
  - split; [discriminate | repeat constructor].
  - reflexivity.
  - reflexivity.
  - reflexivity.
  - left. discriminate.
  - reflexivity.
Defined.

(** X23: the result of [fscanf] is not checked.  When the text after the magic
    word P6 is not a number (a comment line, for instance), [w], [h] and
    [maxColor] keep their indeterminate initial values, and these decide
    what happens: the file is turned away unless [maxColor] happens to hold
    255, and is then decoded with the width and height the locals held. *)
Theorem unchecked_fscanf init junk name fs (text rest : list Z) :
  files fs !! name = Some (bytes_of "P6" ++ [10] ++ text) →
  scan_int text = Failed rest →
  (maxColor init ≠ MAX_COLOR → readPPM init junk name fs = Exit 1) ∧
  (maxColor init = MAX_COLOR →
   readPPM init junk name fs =
   (block ← alloc_pixels junk (hd_w init) (hd_h init);
    count ← int_val (hd_w init * hd_h init);
    Val (mkImage (hd_w init) (hd_h init) (fread3 block count rest)))).
Proof.
  intros Hfile Hscan. unfold readPPM. rewrite Hfile.
  assert (scan_header init (bytes_of "P6" ++ [10] ++ text) =
          Val (mkHeader ([80; 54; 0] ++ drop 3 (format init))
                 (hd_w init) (hd_h init) (maxColor init), rest)) as ->.
  { unfold scan_header.
    change (scan_word (skip_space (bytes_of "P6" ++ [10] ++ text)))
      with ([80; 54], 10 :: text).
    cbn iota. cbn [length Nat.add Nat.ltb Nat.leb app].
    rewrite scan_int_skip, scan_int_space by done. by rewrite Hscan. }
  rewrite bind_val. unfold unsupported. cbn [format maxColor cstring app].
  change (80 =? 0) with false. change (54 =? 0) with false.
  change (0 =? 0) with true. cbn [fmap option_fmap option_map].
  rewrite bool_decide_true by done. cbn [negb orb].
  split; intros Hm.
  - destruct (Z.eqb_spec (maxColor init) MAX_COLOR); done.
  - rewrite Hm. reflexivity.
Qed.

Lemma unchecked_fscanf_witness :
  (maxColor (mkHeader [0; 0; 0] 2 1 255) ≠ MAX_COLOR →
   readPPM (mkHeader [0; 0; 0] 2 1 255) zeros "in.ppm"
     (disk (bytes_of "P6" ++ [10] ++ bytes_of "# made by hand")) = Exit 1) ∧
  (maxColor (mkHeader [0; 0; 0] 2 1 255) = MAX_COLOR →
   readPPM (mkHeader [0; 0; 0] 2 1 255) zeros "in.ppm"
     (disk (bytes_of "P6" ++ [10] ++ bytes_of "# made by hand")) =
   (block ← alloc_pixels zeros (hd_w (mkHeader [0; 0; 0] 2 1 255))
              (hd_h (mkHeader [0; 0; 0] 2 1 255));
    count ← int_val (hd_w (mkHeader [0; 0; 0] 2 1 255)
                     * hd_h (mkHeader [0; 0; 0] 2 1 255));
    Val (mkImage (hd_w (mkHeader [0; 0; 0] 2 1 255))
           (hd_h (mkHeader [0; 0; 0] 2 1 255))
           (fread3 block count (bytes_of "# made by hand"))))).
Proof.
  apply (unchecked_fscanf (mkHeader [0; 0; 0] 2 1 255) zeros "in.ppm"
           (disk (bytes_of "P6" ++ [10] ++ bytes_of "# made by hand"))
           (bytes_of "# made by hand") (bytes_of "# made by hand")).
  - reflexivity.
  - reflexivity.
Defined.
